(** * discogs-scraper: a shallow embedding of [rock_genre/helpers.py] and
    [rock_genre/scraper.py], with the properties of link discovery, locator
    normalisation, artist and album extraction.

    Conventions of the model.
    - A Python [str] is a list of code points below 256 ([list ascii]); the
      character classes are Python's Unicode tables restricted to that range.
    - A Python exception is a value of [exn]; a call that may raise returns an
      [outcome].
    - The Selenium driver is not state we own: what it answers to each query
      of one page is recorded in a page record, and the extractors are
      functions of that record.
    - [handle_language_warning] catches every exception and its return value
      is dropped; [random_delay] only sleeps; printing has no result.  None of
      them occurs in the model. *)

From Stdlib Require Import Ascii String List ZArith NArith Lia Bool Arith.
Import ListNotations.

Set Implicit Arguments.

(** ** Strings *)

Definition str := list ascii.

Definition py (s : string) : str := list_ascii_of_string s.

Definition str_eqb (a b : str) : bool :=
  if list_eq_dec ascii_dec a b then true else false.

Definition code (c : ascii) : N := N_of_ascii c.

Definition between (lo hi : N) (c : ascii) : bool :=
  ((lo <=? code c) && (code c <=? hi))%N.

(** [str.isspace] on one character: TAB..CR, FS..US, space, NEL, NBSP. *)
Definition is_space (c : ascii) : bool :=
  between 9 13 c || between 28 32 c || between 133 133 c || between 160 160 c.

(** [\d] of the [re] module on a [str] pattern: decimal digits. *)
Definition is_digit (c : ascii) : bool := between 48 57 c.

(** [\w] of the [re] module on a [str] pattern: alphanumeric or underscore. *)
Definition is_word (c : ascii) : bool :=
  is_digit c || between 65 90 c || between 97 122 c || between 95 95 c
  || between 170 170 c || between 178 179 c || between 181 181 c
  || between 185 186 c || between 188 190 c
  || between 192 214 c || between 216 246 c || between 248 255 c.

(** [str.lstrip()], [str.rstrip()], [str.strip()] *)
Fixpoint lstrip (s : str) : str :=
  match s with
  | [] => []
  | c :: s' => if is_space c then lstrip s' else s
  end.

Definition rstrip (s : str) : str := rev (lstrip (rev s)).

Definition strip (s : str) : str := rstrip (lstrip s).

(** ** Exceptions *)

(** The exception classes the scraper tells apart.  [WebDriverException]
    stands for any Selenium error that is neither of its two subclasses
    named here, [TypeError] for what [re.search] raises on [None]. *)

Inductive exn : Type :=
| NoSuchElementException
| StaleElementReferenceException
| AttributeError
| TypeError
| WebDriverException.

Inductive outcome (A : Type) : Type :=
| Ret (a : A)
| Raise (e : exn).

Arguments Ret {A} a.
Arguments Raise {A} e.

Definition bind {A B : Type} (m : outcome A) (k : A -> outcome B) : outcome B :=
  match m with
  | Ret a => k a
  | Raise e => Raise e
  end.

(** [try: m  except Exception: h] *)
Definition try_except {A : Type} (m : outcome A) (h : A) : A :=
  match m with
  | Ret a => a
  | Raise _ => h
  end.

Notation "x <- m ;; k" := (bind m (fun x => k))
  (at level 61, m at next level, right associativity).

(** ** Elements *)

(** What one element answers: [elem.text] and [elem.get_attribute("href")].
    An attribute that is absent is [None]. *)
Record WebElement : Type := mkElement {
  text : outcome str;
  href : outcome (option str)
}.

(** ** helpers.py *)

Definition safe_text_catches (e : exn) : bool :=
  match e with
  | NoSuchElementException | StaleElementReferenceException | AttributeError => true
  | _ => false
  end.

Definition safe_text (elem : WebElement) : outcome str :=
  match text elem with
  | Ret s => Ret (strip s)
  | Raise e => if safe_text_catches e then Ret [] else Raise e
  end.

(** ** Substring search and [str.split] *)

(** [s.startswith(p)] *)
Fixpoint starts_with (p s : str) : bool :=
  match p, s with
  | [], _ => true
  | _ :: _, [] => false
  | a :: p', b :: s' => Ascii.eqb a b && starts_with p' s'
  end.

(** [s.find(sep)], with [None] for -1. *)
Fixpoint find (sep s : str) : option nat :=
  if starts_with sep s then Some 0
  else match s with
       | [] => None
       | _ :: s' => option_map S (find sep s')
       end.

(** [sep in s] *)
Definition contains (sep s : str) : bool :=
  match find sep s with
  | Some _ => true
  | None => false
  end.

(** [s.split(sep)] for a non-empty [sep] (Python raises ValueError on an
    empty separator; the scraper only splits on non-empty constants).  Each
    round cuts at the leftmost occurrence and goes on behind it; [length s]
    rounds are enough since every cut removes at least one character. *)
Fixpoint split_fuel (fuel : nat) (sep s : str) : list str :=
  match fuel with
  | 0 => [s]
  | S f =>
      match find sep s with
      | None => [s]
      | Some i => firstn i s :: split_fuel f sep (skipn (i + length sep) s)
      end
  end.

Definition split (sep s : str) : list str := split_fuel (length s) sep s.

(** [l[0]] and [l[-1]] of a list of strings that [split] returned. *)
Definition first_piece (l : list str) : str := hd [] l.
Definition last_piece (l : list str) : str := last l [].

(** [not x] for [x : str | None] *)
Definition falsy (x : option str) : bool :=
  match x with
  | None => true
  | Some [] => true
  | Some (_ :: _) => false
  end.

(** [x in seen] for a set of strings, kept as a list. *)
Definition mem (x : str) (seen : list str) : bool := existsb (str_eqb x) seen.

(** ** constants.py *)

Definition BASE_URL : str := py "https://www.discogs.com".

(** ** scraper.py: link discovery *)

Definition LIST_SELECTORS : list str :=
  [py "ul#most_collected"; py "ul#top_artists"; py "ul#early_masters";
   py "ul#top_mp_items"].

(** [href.split("?")[0]] *)
Definition strip_query (h : str) : str := first_piece (split (py "?") h).

(** [href.split("?")[0].split(BASE_URL)[-1].strip()] *)
Definition normalized_path (h : str) : str :=
  strip (last_piece (split BASE_URL (strip_query h))).

(** [f"{BASE_URL}{normalized_path}"] *)
Definition full_url (h : str) : str := BASE_URL ++ normalized_path h.

(** What the driver shows of the genre page: [driver.get(url)], the wait for
    the first list, and for each selector the anchors that
    [find_element(selector).find_elements(ARTIST_LINK_SELECTOR)] returns, or
    the exception one of the two calls raises. *)
Record GenrePage : Type := mkGenrePage {
  genre_get : outcome unit;
  genre_wait : outcome unit;
  genre_section : str -> outcome (list WebElement)
}.

(** The two accumulators of the collection loop. *)
Record Collected : Type := mkCollected {
  seen_paths : list str;
  artists : list str
}.

Definition len (l : list str) : Z := Z.of_nat (length l).

(** The [for a in possible_artists] loop.  An exception of [get_attribute]
    leaves the loop for the handler of the section, which goes on with the
    next selector: what was collected so far stays. *)
Fixpoint scan_links (limit : Z) (cands : list WebElement) (st : Collected)
  : Collected :=
  match cands with
  | [] => st
  | a :: rest =>
      match href a with
      | Raise _ => st
      | Ret h =>
          match h with
          | Some x =>
              if falsy h || negb (contains (py "/artist/") x)
              then scan_links limit rest st
              else
                let st' :=
                  if mem (normalized_path x) (seen_paths st) then st
                  else mkCollected (normalized_path x :: seen_paths st)
                                   (artists st ++ [full_url x]) in
                if (len (artists st') >=? limit)%Z then st'
                else scan_links limit rest st'
          | None => scan_links limit rest st
          end
      end
  end.

(** The [for selector in LIST_SELECTORS] loop. *)
Fixpoint scan_sections (limit : Z) (section : str -> outcome (list WebElement))
    (selectors : list str) (st : Collected) : Collected :=
  match selectors with
  | [] => st
  | sel :: rest =>
      if (len (artists st) >=? limit)%Z then st
      else
        match section sel with
        | Raise _ => scan_sections limit section rest st
        | Ret cands =>
            scan_sections limit section rest (scan_links limit cands st)
        end
  end.

Definition get_artists_by_genre (page : GenrePage) (limit : Z)
  : outcome (list str) :=
  _ <- genre_get page ;;
  match genre_wait page with
  | Raise _ => Ret []
  | Ret _ =>
      Ret (artists (scan_sections limit (genre_section page) LIST_SELECTORS
                                  (mkCollected [] [])))
  end.

(** ** The three regular expressions of scraper.py *)

(** The first [n] characters of [s] exist and are digits: [\d{n}] at the
    head of [s]. *)
Definition digits_at (n : nat) (s : str) : bool :=
  (n <=? length s) && forallb is_digit (firstn n s).

(** [re.search(r"year=(\d{4})", s)]: group 1 of the leftmost match. *)
Fixpoint search_year_param (s : str) : option str :=
  if starts_with (py "year=") s && digits_at 4 (skipn 5 s)
  then Some (firstn 4 (skipn 5 s))
  else match s with
       | [] => None
       | _ :: s' => search_year_param s'
       end.

Definition is_word_at (c : option ascii) : bool :=
  match c with
  | Some x => is_word x
  | None => false
  end.

(** [\b] between the character before a position and the one at it. *)
Definition word_boundary (prev next : option ascii) : bool :=
  xorb (is_word_at prev) (is_word_at next).

(** One attempt of [\b(19|20)\d{2}\b] at the head of [s], [prev] being the
    character before it.  A match reports its group 1, the way [findall]
    does for a pattern with one group. *)
Definition year_match_at (prev : option ascii) (s : str) : option str :=
  match s with
  | c1 :: c2 :: c3 :: c4 :: tl =>
      if word_boundary prev (Some c1)
         && (str_eqb [c1; c2] (py "19") || str_eqb [c1; c2] (py "20"))
         && is_digit c3 && is_digit c4
         && word_boundary (Some c4) (hd_error tl)
      then Some [c1; c2]
      else None
  | _ => None
  end.

(** [re.findall(r"\b(19|20)\d{2}\b", s)]: the matches from left to right,
    not overlapping ([skip] characters of the last match are still to be
    passed). *)
Fixpoint findall_years_from (skip : nat) (prev : option ascii) (s : str)
  : list str :=
  match s with
  | [] => []
  | c :: s' =>
      match skip with
      | S k => findall_years_from k (Some c) s'
      | 0 =>
          match year_match_at prev s with
          | Some g => g :: findall_years_from 3 (Some c) s'
          | None => findall_years_from 0 (Some c) s'
          end
      end
  end.

Definition findall_years (s : str) : list str := findall_years_from 0 None s.

Definition newline : ascii := ascii_of_nat 10.

(** [\d*$] at the head of [s]; [$] also matches before a last newline. *)
Fixpoint digits_to_end (s : str) : bool :=
  match s with
  | [] => true
  | [c] => is_digit c || Ascii.eqb c newline
  | c :: s' => is_digit c && digits_to_end s'
  end.

(** [re.match(r"^\d+$", s)] is not [None]. *)
Definition match_digits (s : str) : bool :=
  match s with
  | [] => false
  | c :: s' => is_digit c && digits_to_end s'
  end.

(** ** scraper.py: album extraction *)

Record Track : Type := mkTrack {
  track_number : Z;
  track_name : str;
  duration : option str
}.

Record Album : Type := mkAlbum {
  album_id : str;
  album_name : option str;
  release_year : option str;
  label : option str;
  styles : list str;
  tracks : list Track;
  album_source_url : str
}.

(** What one row of the track list answers. *)
Record TrackRow : Type := mkRow {
  row_duration : outcome WebElement;      (* r.find_element(DUR_ELEMENT_FINDER) *)
  row_title : outcome WebElement;         (* r.find_element(span tracklistTitle) *)
  row_texts : outcome (list WebElement)   (* r.find_elements(td/span | td/a) *)
}.

(** What the driver shows of an album page. *)
Record AlbumPage : Type := mkAlbumPage {
  album_get : outcome unit;               (* driver.get(album_url) *)
  album_wait : outcome unit;              (* wait.until(h1 present) *)
  page_source : outcome str;
  album_h1s : outcome (list WebElement);  (* find_elements(h1) *)
  album_h1 : outcome WebElement;          (* find_element(h1) *)
  year_elem : outcome WebElement;
  label_elem : outcome WebElement;
  label_elems : outcome (list WebElement);
  style_anchors : outcome (list WebElement);
  track_rows : outcome (list TrackRow);
  album_uuid : str                        (* str(uuid.uuid4()) *)
}.

(** Lines 283-290, the body of the [try]. *)
Definition year_primary (p : AlbumPage) : outcome str :=
  e <- year_elem p ;;
  h <- href e ;;
  match h with
  | None => Raise TypeError
  | Some x =>
      match search_year_param x with
      | Some y => Ret y
      | None => safe_text e
      end
  end.

(** Lines 292-295, the handler. *)
Definition year_fallback (page_html : str) : option str :=
  hd_error (findall_years page_html).

Definition extract_release_year (p : AlbumPage) (page_html : str) : option str :=
  match year_primary p with
  | Ret y => Some y
  | Raise _ => year_fallback page_html
  end.

Definition label_fallback (p : AlbumPage) : outcome (option str) :=
  l <- label_elems p ;;
  match l with
  | [] => Ret None
  | e :: _ => t <- safe_text e ;; Ret (Some t)
  end.

Definition extract_label (p : AlbumPage) : option str :=
  match (e <- label_elem p ;; safe_text e) with
  | Ret t => Some t
  | Raise _ => try_except (label_fallback p) None
  end.

Fixpoint scan_styles (anchors : list WebElement) (acc : list str)
  : outcome (list str) :=
  match anchors with
  | [] => Ret acc
  | s :: rest =>
      txt <- safe_text s ;;
      if (2 <? length txt) && (length txt <? 30) && negb (mem txt acc)
      then scan_styles rest (acc ++ [txt])
      else scan_styles rest acc
  end.

Definition extract_styles (p : AlbumPage) : list str :=
  try_except (a <- style_anchors p ;; scan_styles a []) [].

(** Lines 350-354: the duration of a row; only a missing element is
    tolerated here. *)
Definition row_dur_raw (r : TrackRow) : outcome (option str) :=
  match row_duration r with
  | Ret e => t <- safe_text e ;; Ret (Some t)
  | Raise NoSuchElementException => Ret None
  | Raise e => Raise e
  end.

(** [ttxt != dur_raw] *)
Definition differs (ttxt : str) (dur_raw : option str) : bool :=
  match dur_raw with
  | None => true
  | Some d => negb (str_eqb ttxt d)
  end.

(** Lines 365-369: the first text that is not the duration and is longer
    than 5 characters. *)
Fixpoint first_long_text (all_texts : list WebElement) (dur_raw : option str)
  : outcome (option str) :=
  match all_texts with
  | [] => Ret None
  | t :: rest =>
      ttxt <- safe_text t ;;
      if negb (falsy (Some ttxt)) && differs ttxt dur_raw && (5 <? length ttxt)
      then Ret (Some ttxt)
      else first_long_text rest dur_raw
  end.

(** Lines 357-369: the name of a row. *)
Definition row_name (r : TrackRow) (dur_raw : option str) : outcome (option str) :=
  match row_title r with
  | Ret e => t <- safe_text e ;; Ret (Some t)
  | Raise NoSuchElementException =>
      all_texts <- row_texts r ;;
      first_long_text all_texts dur_raw
  | Raise e => Raise e
  end.

(** [album_name_raw and album_name_raw in name
     and len(name) < len(album_name_raw) + 10] *)
Definition restates_album (album_name_raw : option str) (name : str) : bool :=
  match album_name_raw with
  | None => false
  | Some a =>
      negb (falsy (Some a)) && contains a name
      && (Z.of_nat (length name) <? Z.of_nat (length a) + 10)%Z
  end.

(** Lines 372-380: the condition under which a row is skipped. *)
Definition discarded (album_name_raw name : option str) : bool :=
  match name with
  | None => true
  | Some n => falsy name || match_digits n || restates_album album_name_raw n
  end.

(** The [for r in rows] loop with its counter [tn] and the list [tracks]. *)
Fixpoint scan_rows (album_name_raw : option str) (rows : list TrackRow)
    (tn : Z) (acc : list Track) : outcome (list Track) :=
  match rows with
  | [] => Ret acc
  | r :: rest =>
      dur_raw <- row_dur_raw r ;;
      name <- row_name r dur_raw ;;
      match name with
      | Some n =>
          if discarded album_name_raw name
          then scan_rows album_name_raw rest tn acc
          else scan_rows album_name_raw rest (tn + 1)
                         (acc ++ [mkTrack tn n dur_raw])
      | None => scan_rows album_name_raw rest tn acc
      end
  end.

(** Lines 343-395. *)
Definition extract_tracks (p : AlbumPage) (album_name_raw : option str)
  : list Track :=
  try_except (rows <- track_rows p ;; scan_rows album_name_raw rows 1 []) [].

(** [sorted(l, key=lambda t: t.get("track_number", 9999))]: every track has
    the key; a stable sort, as insertion from the right. *)
Fixpoint insert_track (t : Track) (l : list Track) : list Track :=
  match l with
  | [] => [t]
  | u :: l' =>
      if (track_number t <=? track_number u)%Z then t :: l
      else u :: insert_track t l'
  end.

Fixpoint sorted (l : list Track) : list Track :=
  match l with
  | [] => []
  | t :: l' => insert_track t (sorted l')
  end.

(** Lines 274-278. *)
Definition extract_album_name (p : AlbumPage) : outcome (option str) :=
  h1s <- album_h1s p ;;
  match h1s with
  | [] => Ret None
  | _ :: _ => e <- album_h1 p ;; t <- safe_text e ;; Ret (Some t)
  end.

Definition get_album_data (p : AlbumPage) (album_url : str)
  : outcome (option Album) :=
  match album_get p with
  | Raise _ => Ret None
  | Ret _ =>
      page_html <- page_source p ;;
      name <- extract_album_name p ;;
      let release_year := extract_release_year p page_html in
      let label := extract_label p in
      let styles := extract_styles p in
      let tracks := sorted (extract_tracks p name) in
      Ret (Some (mkAlbum (album_uuid p) name release_year label styles tracks
                         album_url))
  end.

(** ** scraper.py: artist extraction *)

Record Artist : Type := mkArtist {
  artist_id : str;
  genre : str;
  artist_name : option str;
  members : list str;
  websites : list str;
  albums : list Album;
  source_url : str
}.

(** What the driver shows of an artist page, and of the album pages it is
    sent to from there. *)
Record ArtistPage : Type := mkArtistPage {
  artist_get : outcome unit;                (* driver.get(artist_url) *)
  artist_wait : outcome unit;               (* wait.until(h1 present) *)
  artist_h1 : outcome WebElement;
  member_links : outcome (list WebElement);
  sites : outcome (list WebElement);
  candidate_links : outcome (list WebElement);
  album_page : str -> AlbumPage;
  artist_uuid : str                         (* str(uuid.uuid4()) *)
}.

Definition extract_artist_name (p : ArtistPage) : option str :=
  match (e <- artist_h1 p ;; safe_text e) with
  | Ret t => Some t
  | Raise _ => None
  end.

Fixpoint scan_members (links : list WebElement) (acc : list str)
  : outcome (list str) :=
  match links with
  | [] => Ret acc
  | a :: rest =>
      t <- safe_text a ;;
      if falsy (Some t) then scan_members rest acc
      else scan_members rest (acc ++ [t])
  end.

(** [list(set(members))].  Python fixes no order for the elements of a set;
    the model lists them by first occurrence. *)
Fixpoint list_of_set (l seen : list str) : list str :=
  match l with
  | [] => []
  | x :: l' =>
      if mem x seen then list_of_set l' seen
      else x :: list_of_set l' (x :: seen)
  end.

Definition extract_members (p : ArtistPage) : list str :=
  try_except (l <- member_links p ;; m <- scan_members l [] ;;
              Ret (list_of_set m [])) [].

Fixpoint scan_sites (links : list WebElement) (acc : list str)
  : outcome (list str) :=
  match links with
  | [] => Ret acc
  | a :: rest =>
      h <- href a ;;
      match h with
      | Some x =>
          if negb (falsy h) && negb (mem x acc)
          then scan_sites rest (acc ++ [x])
          else scan_sites rest acc
      | None => scan_sites rest acc
      end
  end.

Definition extract_websites (p : ArtistPage) : list str :=
  try_except (l <- sites p ;; scan_sites l []) [].

(** Lines 200-209: dedupe and limit in a single pass. *)
Fixpoint scan_album_links (album_limit : Z) (cands : list WebElement)
    (seen album_links : list str) : outcome (list str) :=
  match cands with
  | [] => Ret album_links
  | a :: rest =>
      h <- href a ;;
      match h with
      | Some x =>
          if negb (falsy h)
             && (contains (py "/release/") x || contains (py "/master/") x)
          then
            if mem (strip_query x) seen
            then scan_album_links album_limit rest seen album_links
            else
              if (len (album_links ++ [strip_query x]) >=? album_limit)%Z
              then Ret (album_links ++ [strip_query x])
              else scan_album_links album_limit rest (strip_query x :: seen)
                                    (album_links ++ [strip_query x])
          else scan_album_links album_limit rest seen album_links
      | None => scan_album_links album_limit rest seen album_links
      end
  end.

(** Lines 193-212. *)
Definition collect_album_links (p : ArtistPage) (album_limit : Z) : list str :=
  try_except (c <- candidate_links p ;; scan_album_links album_limit c [] []) [].

(** Lines 215-222: an album that comes back as [None] is dropped; an
    exception of [get_album_data] is not caught here. *)
Fixpoint collect_albums (album_page : str -> AlbumPage) (album_links : list str)
    (acc : list Album) : outcome (list Album) :=
  match album_links with
  | [] => Ret acc
  | a_url :: rest =>
      album_data <- get_album_data (album_page a_url) a_url ;;
      match album_data with
      | Some a => collect_albums album_page rest (acc ++ [a])
      | None => collect_albums album_page rest acc
      end
  end.

Definition get_artist_data (p : ArtistPage) (artist_url genre : str)
    (album_limit : Z) : outcome (option Artist) :=
  match artist_get p with
  | Raise _ => Ret None
  | Ret _ =>
      match artist_wait p with
      | Raise _ => Ret None
      | Ret _ =>
          let artist_name := extract_artist_name p in
          let members := extract_members p in
          let websites := extract_websites p in
          let album_links := collect_album_links p album_limit in
          albums <- collect_albums (album_page p) album_links [] ;;
          Ret (Some (mkArtist (artist_uuid p) genre artist_name members
                              websites albums artist_url))
      end
  end.

(** ** pipeline_runner.py *)

(** The [for idx, artist_url in enumerate(artists)] loop of
    [process_artists_and_save]: [pages] is what the driver shows at each
    artist locator; a record is appended, a [None] is only reported. *)
Fixpoint process_artists (pages : str -> ArtistPage) (artists : list str)
    (genre : str) (album_limit : Z) (all_artists : list Artist)
  : outcome (list Artist) :=
  match artists with
  | [] => Ret all_artists
  | artist_url :: rest =>
      artist_data <- get_artist_data (pages artist_url) artist_url genre
                                     album_limit ;;
      match artist_data with
      | Some a => process_artists pages rest genre album_limit (all_artists ++ [a])
      | None => process_artists pages rest genre album_limit all_artists
      end
  end.

(** [process_artists_and_save]: the records written to the output file, one
    per line, and the count returned.  The file is opened after the loop, so
    an exception that leaves the loop writes nothing.  (Errors of the file
    system are not modelled.) *)
Definition process_artists_and_save (pages : str -> ArtistPage)
    (artists : list str) (genre : str) (album_limit : Z)
  : list Artist * outcome Z :=
  match process_artists pages artists genre album_limit [] with
  | Ret all_artists => (all_artists, Ret (Z.of_nat (length all_artists)))
  | Raise e => ([], Raise e)
  end.

(** ** Notions the properties are stated with *)

(** [a] occurs in [n] as a substring. *)
Definition occurs (a n : str) : Prop := exists u v, n = u ++ a ++ v.

(** A string without a query component. *)
Definition no_query (s : str) : Prop := ~ In "?"%char s.

(** The elements of a list in the order of their first occurrence. *)
Fixpoint first_occurrences (l : list str) : list str :=
  match l with
  | [] => []
  | x :: l' => x :: filter (fun y => negb (str_eqb y x)) (first_occurrences l')
  end.

(** The targets a section offers in document order: those of the anchors
    read before [get_attribute] raises, if it does, that are present and
    point to an artist. *)
Fixpoint section_hrefs (cands : list WebElement) : list str :=
  match cands with
  | [] => []
  | a :: rest =>
      match href a with
      | Raise _ => []
      | Ret None => section_hrefs rest
      | Ret (Some x) =>
          if falsy (Some x) || negb (contains (py "/artist/") x)
          then section_hrefs rest
          else x :: section_hrefs rest
      end
  end.

(** The targets of a listing: section order, then document order. *)
Definition listing_hrefs (section : str -> outcome (list WebElement))
    (selectors : list str) : list str :=
  flat_map (fun sel => match section sel with
                       | Ret cands => section_hrefs cands
                       | Raise _ => []
                       end) selectors.

(** Link discovery as the specification words it: normalise, keep the first
    occurrence of every normalised form, stop at the cap. *)
Definition discover_spec (hrefs : list str) (cap : Z) : list str :=
  firstn (Z.to_nat cap)
         (map (app BASE_URL) (first_occurrences (map normalized_path hrefs))).

(** No white space at the head, resp. at the end. *)
Definition clean_head (s : str) : Prop :=
  match s with
  | [] => True
  | c :: _ => is_space c = false
  end.

Definition clean_end (s : str) : Prop := clean_head (rev s).

(** The list of locators is the image of the paths seen, oldest first. *)
Definition consistent (st : Collected) : Prop :=
  artists st = map (app BASE_URL) (rev (seen_paths st)).

(** A name that is purely numeric. *)
Definition purely_numeric (n : str) : Prop :=
  n <> [] /\ forallb is_digit n = true.

(** The integrity filter as the code applies it: the name is missing or
    empty, purely numeric, or holds the non-empty album name and is fewer
    than 10 characters longer. *)
Definition discard_spec (album_name_raw name : option str) : Prop :=
  match name with
  | None => True
  | Some n =>
      n = [] \/ purely_numeric n
      \/ exists a, album_name_raw = Some a /\ a <> [] /\ occurs a n
                   /\ length n < length a + 10
  end.

(** The integrity filter as it is worded: "no more than 10 characters
    longer" than the album name. *)
Definition discard_claimed (album_name_raw name : option str) : Prop :=
  match name with
  | None => True
  | Some n =>
      n = [] \/ purely_numeric n
      \/ exists a, album_name_raw = Some a /\ occurs a n
                   /\ length n <= length a + 10
  end.

(** The rows that pass the filter, in scan order, as name and duration. *)
Fixpoint survivors (album_name_raw : option str) (rows : list TrackRow)
  : outcome (list (str * option str)) :=
  match rows with
  | [] => Ret []
  | r :: rest =>
      dur_raw <- row_dur_raw r ;;
      name <- row_name r dur_raw ;;
      s <- survivors album_name_raw rest ;;
      match name with
      | Some n => if discarded album_name_raw name then Ret s
                  else Ret ((n, dur_raw) :: s)
      | None => Ret s
      end
  end.

(** Numbering from [tn] on. *)
Fixpoint number_from (tn : Z) (l : list (str * option str)) : list Track :=
  match l with
  | [] => []
  | (n, d) :: l' => mkTrack tn n d :: number_from (tn + 1) l'
  end.

(** Track numbers that do not decrease along the list. *)
Fixpoint ascending (l : list Track) : Prop :=
  match l with
  | [] => True
  | t :: l' =>
      match l' with
      | [] => True
      | u :: _ => (track_number t <= track_number u)%Z /\ ascending l'
      end
  end.

(** The first 4-digit token beginning with 19 or 20, as the fallback of the
    release year is worded: the whole match of the pattern, where
    [findall_years] reports its group. *)
Definition year_token_at (prev : option ascii) (s : str) : option str :=
  match year_match_at prev s with
  | Some _ => Some (firstn 4 s)
  | None => None
  end.

Fixpoint first_year_token_from (prev : option ascii) (s : str) : option str :=
  match s with
  | [] => None
  | c :: s' =>
      match year_token_at prev s with
      | Some t => Some t
      | None => first_year_token_from (Some c) s'
      end
  end.

Definition first_year_token (s : str) : option str := first_year_token_from None s.

(** The same album page with another answer to the wait for the heading. *)
Definition with_album_wait (w : outcome unit) (p : AlbumPage) : AlbumPage :=
  mkAlbumPage (album_get p) w (page_source p) (album_h1s p) (album_h1 p)
              (year_elem p) (label_elem p) (label_elems p) (style_anchors p)
              (track_rows p) (album_uuid p).

(** A string without white space at either end. *)
Definition stripped (s : str) : Prop := clean_head s /\ clean_end s.

(** [get_artist_data] gives a record at this locator. *)
Definition extracted (pages : str -> ArtistPage) (genre : str) (album_limit : Z)
    (artist_url : str) : bool :=
  match get_artist_data (pages artist_url) artist_url genre album_limit with
  | Ret (Some _) => true
  | _ => false
  end.

(** [get_album_data] gives a record at this locator. *)
Definition album_extracted (album_page : str -> AlbumPage) (a_url : str) : bool :=
  match get_album_data (album_page a_url) a_url with
  | Ret (Some _) => true
  | _ => false
  end.

(** ** Concrete pages, those of the test suite first *)

(** An anchor with the given target and text, as [mock_link_element]. *)
Definition link (target label : string) : WebElement :=
  mkElement (Ret (py label)) (Ret (Some (py target))).

Definition missing {A : Type} : outcome A := Raise NoSuchElementException.

(** [test_get_artists_by_genre_collects_and_deduplicates]: the first
    selector finds a list without anchors, the next two find the two lists of
    the test, the last one is not found. *)
Definition two_lists_page : GenrePage :=
  mkGenrePage (Ret tt) (Ret tt)
    (fun sel =>
       if str_eqb sel (py "ul#most_collected") then Ret []
       else if str_eqb sel (py "ul#top_artists") then
         Ret [link "https://www.discogs.com/artist/1-A?query=x" "";
              link "https://www.discogs.com/artist/2-B" "";
              link "https://www.discogs.com/artist/1-A" "";
              link "https://other.com/link" ""]
       else if str_eqb sel (py "ul#early_masters") then
         Ret [link "https://www.discogs.com/artist/3-C" "";
              link "https://www.discogs.com/artist/2-B" ""]
       else missing).

(** [test_get_artists_by_genre_respects_limit]: four artists in two lists. *)
Definition four_artists_page : GenrePage :=
  mkGenrePage (Ret tt) (Ret tt)
    (fun sel =>
       if str_eqb sel (py "ul#most_collected") then Ret []
       else if str_eqb sel (py "ul#top_artists") then
         Ret [link "https://www.discogs.com/artist/1" "";
              link "https://www.discogs.com/artist/2" ""]
       else if str_eqb sel (py "ul#early_masters") then
         Ret [link "https://www.discogs.com/artist/3" "";
              link "https://www.discogs.com/artist/4" ""]
       else missing).

(** An album page on which every query finds nothing. *)
Definition bare_album_page : AlbumPage :=
  mkAlbumPage (Ret tt) (Ret tt) (Ret []) (Ret []) missing missing missing
              (Ret []) missing (Ret []) (py "album").

(** [test_get_artist_data_members_websites_albums]: a heading, one member,
    one site and four album links. *)
Definition test_band_page : ArtistPage :=
  mkArtistPage (Ret tt) (Ret tt)
    (Ret (mkElement (Ret (py "The Test Band")) (Ret None)))
    (Ret [link "/artist/member" "Member A"])
    (Ret [link "https://test.com/site" "site"])
    (Ret [link "/release/100" ""; link "/master/200" "";
          link "/release/300" ""; link "/release/400" ""])
    (fun _ => bare_album_page)
    (py "artist").

(** An element with the given text and no target. *)
Definition labelled (label : string) : WebElement :=
  mkElement (Ret (py label)) (Ret None).

(** A track row with a title and no duration cell. *)
Definition titled_row (title : string) : TrackRow :=
  mkRow missing (Ret (labelled title)) (Ret []).

(** An album "AB" whose track list has a row named after it with ten more
    characters; the page has no year cell and its markup mentions 1999. *)
Definition ab_album_page : AlbumPage :=
  mkAlbumPage (Ret tt) (Raise WebDriverException)
              (Ret (py "<p>Released 1999, reissued 2004</p>"))
              (Ret [labelled " AB "]) (Ret (labelled " AB "))
              missing missing (Ret []) missing
              (Ret [titled_row "12"; titled_row "AB"; titled_row "AB0123456789";
                    titled_row "Second Song"])
              (py "album").

(** An album page whose heading is gone when it is looked up again. *)
Definition vanishing_heading_page : AlbumPage :=
  mkAlbumPage (Ret tt) (Ret tt) (Ret []) (Ret [labelled "Title"]) missing
              missing missing (Ret []) missing (Ret []) (py "album").

(** An artist page on which every field lookup raises. *)
Definition failing_fields_page : ArtistPage :=
  mkArtistPage (Ret tt) (Ret tt) missing (Raise WebDriverException)
               (Raise WebDriverException) (Raise WebDriverException)
               (fun _ => vanishing_heading_page) (py "artist").

(** A track row without a title span, with a position, a duration and a
    title among its texts. *)
Definition untitled_row : TrackRow :=
  mkRow (Ret (labelled "3:45")) missing
        (Ret [labelled "A1"; labelled "3:45"; labelled " Come Together "]).

(** An album page whose year cell links to a search by year. *)
Definition year_cell_page : AlbumPage :=
  mkAlbumPage (Ret tt) (Ret tt) (Ret (py "<p>Remastered 2009</p>"))
              (Ret [labelled "Abbey Road"]) (Ret (labelled "Abbey Road"))
              (Ret (link "https://www.discogs.com/search/?year=1969&type=all" "1969"))
              (Ret (labelled " Apple Records ")) (Ret [])
              (Ret [labelled "Rock"; labelled "Pop Rock"; labelled "Rock"; labelled "UK"])
              (Ret [untitled_row; titled_row "Something"])
              (py "album").

(** A driver that shows the test band at one locator, a page that does not
    load at a second, and a page whose album extraction raises elsewhere. *)
Definition three_artists (artist_url : str) : ArtistPage :=
  if str_eqb artist_url (py "/artist/1") then test_band_page
  else if str_eqb artist_url (py "/artist/2") then
    mkArtistPage (Raise WebDriverException) (Ret tt) missing (Ret []) (Ret [])
                 (Ret []) (fun _ => bare_album_page) (py "artist")
  else
    mkArtistPage (Ret tt) (Ret tt) missing (Ret []) (Ret [])
                 (Ret [link "/release/7" ""]) (fun _ => vanishing_heading_page)
                 (py "artist").

(** * Properties *)

(** ** Strings *)

Lemma str_eqb_eq (a b : str) : str_eqb a b = true <-> a = b.
Proof.
  unfold str_eqb. destruct (list_eq_dec ascii_dec a b); split; congruence.
Qed.

Lemma str_eqb_refl (a : str) : str_eqb a a = true.
Proof. now apply str_eqb_eq. Qed.

Lemma str_eqb_neq (a b : str) : str_eqb a b = false <-> a <> b.
Proof.
  unfold str_eqb. destruct (list_eq_dec ascii_dec a b); split; congruence.
Qed.

Lemma mem_In (x : str) (l : list str) : mem x l = true <-> In x l.
Proof.
  unfold mem. rewrite existsb_exists. split.
  - intros [y [Hy E]]. apply str_eqb_eq in E. now subst.
  - intros H. exists x. split; [assumption | apply str_eqb_refl].
Qed.

Lemma mem_false (x : str) (l : list str) : mem x l = false <-> ~ In x l.
Proof.
  rewrite <- mem_In. destruct (mem x l); split; congruence.
Qed.

Lemma starts_with_spec (p s : str) :
  starts_with p s = true <-> exists t, s = p ++ t.
Proof.
  revert s. induction p as [|a p IH]; intros s; simpl.
  - split; [intros _; now exists s | reflexivity].
  - destruct s as [|b s].
    + split; [discriminate | intros [t Ht]; discriminate].
    + rewrite andb_true_iff, Ascii.eqb_eq, IH. split.
      * intros [-> [t ->]]. now exists t.
      * intros [t Ht]. injection Ht as -> ->. split; [reflexivity | now exists t].
Qed.

Lemma find_unfold (sep s : str) :
  find sep s =
  if starts_with sep s then Some 0
  else match s with
       | [] => None
       | _ :: s' => option_map S (find sep s')
       end.
Proof. destruct s; reflexivity. Qed.

Lemma find_None (sep s : str) : find sep s = None <-> ~ occurs sep s.
Proof.
  induction s as [|c s IH]; rewrite find_unfold.
  - destruct (starts_with sep []) eqn:E.
    + split; [discriminate |]. intros H. exfalso. apply H.
      apply starts_with_spec in E. destruct E as [t Ht]. now exists [], t.
    + split; [| reflexivity]. intros _ [u [v H]].
      destruct u; [| discriminate]. simpl in H.
      assert (starts_with sep [] = true) by (apply starts_with_spec; now exists v).
      congruence.
  - destruct (starts_with sep (c :: s)) eqn:E.
    + split; [discriminate |]. intros H. exfalso. apply H.
      apply starts_with_spec in E. destruct E as [t Ht]. now exists [], t.
    + destruct (find sep s) eqn:F; simpl.
      * split; [discriminate |]. intros H. exfalso.
        assert (G : ~ occurs sep s) by (intros [u [v ->]]; apply H; now exists (c :: u), v).
        apply IH in G. discriminate.
      * split; [| reflexivity]. intros _ [u [v H]].
        destruct u as [|d u].
        -- assert (starts_with sep (c :: s) = true)
             by (apply starts_with_spec; now exists v).
           congruence.
        -- injection H as _ ->. destruct IH as [IH _].
           apply IH; [reflexivity | now exists u, v].
Qed.

Lemma contains_occurs (sep s : str) : contains sep s = true <-> occurs sep s.
Proof.
  unfold contains. destruct (find sep s) eqn:F.
  - split; [| reflexivity]. intros _.
    destruct (find_None sep s) as [_ H].
    assert (N : ~ ~ occurs sep s) by (intros G; apply H in G; congruence).
    clear H. revert n F N. induction s as [|c s IH]; intros n F _.
    + rewrite find_unfold in F. destruct (starts_with sep []) eqn:E; [| discriminate].
      apply starts_with_spec in E. destruct E as [t Ht]. now exists [], t.
    + rewrite find_unfold in F. destruct (starts_with sep (c :: s)) eqn:E.
      * apply starts_with_spec in E. destruct E as [t Ht]. now exists [], t.
      * destruct (find sep s) eqn:G; [| discriminate].
        destruct (IH n0 eq_refl) as [u [v ->]].
        { intros K. apply find_None in K. congruence. }
        now exists (c :: u), v.
  - split; [discriminate |]. intros H. apply find_None in F. contradiction.
Qed.

Lemma occurs_sub (sep s u v : str) : ~ occurs sep (u ++ s ++ v) -> ~ occurs sep s.
Proof.
  intros H [a [b ->]]. apply H. exists (u ++ a), (b ++ v).
  now rewrite <- !app_assoc.
Qed.

(** Where [find] reports an occurrence there is one, and none before it. *)
Lemma find_Some (sep s : str) (i : nat) :
  find sep s = Some i ->
  s = firstn i s ++ sep ++ skipn (i + length sep) s
  /\ (sep <> [] -> ~ occurs sep (firstn i s)).
Proof.
  revert i. induction s as [|c s IH]; intros i F; rewrite find_unfold in F.
  - destruct (starts_with sep []) eqn:E; [| discriminate].
    injection F as <-. apply starts_with_spec in E. destruct E as [t Ht].
    destruct sep; [| discriminate]. simpl. split; [reflexivity |].
    intros N. now contradiction N.
  - destruct (starts_with sep (c :: s)) eqn:E.
    + injection F as <-. apply starts_with_spec in E. destruct E as [t Ht].
      simpl firstn. simpl plus. split.
      * rewrite Ht at 2. rewrite skipn_app, Nat.sub_diag, skipn_all. simpl.
        now rewrite Ht.
      * intros N [u [v H]]. destruct u; [| discriminate].
        destruct sep; [now contradiction N | discriminate].
    + destruct (find sep s) as [j|] eqn:G; [| discriminate].
      injection F as <-. destruct (IH j eq_refl) as [D M]. split.
      * simpl. now rewrite <- D.
      * intros N [u [v H]]. simpl in H. destruct u as [|d u].
        -- assert (K : starts_with sep (c :: s) = true).
           { apply starts_with_spec. exists (v ++ skipn j s).
             rewrite <- (firstn_skipn j s) at 1. simpl in H.
             rewrite app_comm_cons, H. now rewrite <- app_assoc. }
           congruence.
        -- injection H as _ H. apply (M N). now exists u, v.
Qed.

Lemma split_fuel_nonempty (fuel : nat) (sep s : str) : split_fuel fuel sep s <> [].
Proof. destruct fuel; simpl; [| destruct (find sep s)]; discriminate. Qed.

Lemma first_piece_split (sep s : str) :
  first_piece (split sep s) =
  match find sep s with
  | None => s
  | Some i => firstn i s
  end.
Proof.
  unfold split. destruct s as [|c s].
  - cbn. destruct (starts_with sep []); reflexivity.
  - cbn [length split_fuel]. now destruct (find sep (c :: s)).
Qed.

Lemma split_no_sep (sep s : str) : find sep s = None -> split sep s = [s].
Proof.
  unfold split. intros F. destruct (length s); simpl; [reflexivity | now rewrite F].
Qed.

Lemma last_cons (x : str) (l : list str) : l <> [] -> last (x :: l) [] = last l [].
Proof. destruct l; [congruence | reflexivity]. Qed.

(** The last piece of a split is the end of the string and holds no
    separator. *)
Lemma last_piece_split_fuel (sep : str) :
  sep <> [] ->
  forall (fuel : nat) (s : str), length s <= fuel ->
  ~ occurs sep (last_piece (split_fuel fuel sep s))
  /\ exists u, s = u ++ last_piece (split_fuel fuel sep s).
Proof.
  intros N. unfold last_piece.
  induction fuel as [|f IH]; intros s L.
  - destruct s; [| simpl in L; lia]. simpl. split; [| now exists []].
    intros [u [v H]]. destruct u; [| discriminate]. destruct sep; [congruence | discriminate].
  - simpl. destruct (find sep s) as [i|] eqn:F.
    + rewrite last_cons by apply split_fuel_nonempty.
      destruct (find_Some _ _ F) as [D _].
      assert (Ls : length (skipn (i + length sep) s) <= f).
      { rewrite length_skipn. destruct sep as [|d sep]; [congruence |].
        destruct s as [|c s]; cbn [length] in *; [lia | lia]. }
      destruct (IH _ Ls) as [H1 [u H2]]. split; [assumption |].
      exists (firstn (i + length sep) s ++ u).
      rewrite <- app_assoc, <- H2. now rewrite firstn_skipn.
    + simpl. split; [now apply find_None | now exists []].
Qed.

Lemma last_piece_split (sep s : str) :
  sep <> [] ->
  ~ occurs sep (last_piece (split sep s))
  /\ exists u, s = u ++ last_piece (split sep s).
Proof. intros N. now apply last_piece_split_fuel. Qed.

(** Behind a leading separator that occurs nowhere else, the last piece is
    the rest. *)
Lemma last_piece_split_prefix (sep p : str) :
  sep <> [] -> ~ occurs sep p -> last_piece (split sep (sep ++ p)) = p.
Proof.
  intros N H. unfold split, last_piece.
  destruct sep as [|c sep]; [congruence |].
  cbn [length app]. cbn [split_fuel].
  assert (F : find ((c :: sep)) (c :: sep ++ p) = Some 0).
  { rewrite find_unfold.
    replace (starts_with (c :: sep) (c :: sep ++ p)) with true; [reflexivity |].
    symmetry. apply starts_with_spec. now exists p. }
  rewrite F. rewrite last_cons by apply split_fuel_nonempty.
  replace (skipn (0 + length (c :: sep)) (c :: sep ++ p)) with p.
  - apply find_None in H. destruct (length (sep ++ p)); simpl; [reflexivity |].
    now rewrite H.
  - change (c :: sep ++ p) with ((c :: sep) ++ p).
    change (0 + length (c :: sep)) with (length (c :: sep)).
    now rewrite skipn_app, Nat.sub_diag, skipn_all.
Qed.

(** ** [strip] *)

Lemma lstrip_clean (s : str) : clean_head (lstrip s).
Proof.
  induction s as [|c s IH]; simpl; [exact I |].
  destruct (is_space c) eqn:E; [assumption | exact E].
Qed.

Lemma lstrip_fix (s : str) : clean_head s -> lstrip s = s.
Proof. destruct s as [|c s]; simpl; [reflexivity | now intros ->]. Qed.

Lemma lstrip_suffix (s : str) : exists u, s = u ++ lstrip s.
Proof.
  induction s as [|c s [u IH]]; simpl; [now exists [] |].
  destruct (is_space c); [| now exists []].
  exists (c :: u). simpl. now rewrite <- IH.
Qed.

Lemma lstrip_app (l m : str) (c : ascii) :
  is_space c = false -> lstrip (l ++ c :: m) = lstrip l ++ c :: m.
Proof.
  intros E. induction l as [|d l IH]; simpl; [now rewrite E |].
  now destruct (is_space d).
Qed.

Lemma rstrip_cons (c : ascii) (t : str) :
  is_space c = false -> rstrip (c :: t) = c :: rstrip t.
Proof.
  intros E. unfold rstrip. simpl rev. rewrite lstrip_app by assumption.
  rewrite rev_app_distr. reflexivity.
Qed.

Lemma rstrip_clean (s : str) : clean_end (rstrip s).
Proof. unfold clean_end, rstrip. rewrite rev_involutive. apply lstrip_clean. Qed.

Lemma rstrip_fix (s : str) : clean_end s -> rstrip s = s.
Proof.
  unfold clean_end, rstrip. intros H. rewrite lstrip_fix by assumption.
  apply rev_involutive.
Qed.

Lemma rstrip_prefix (s : str) : exists v, s = rstrip s ++ v.
Proof.
  unfold rstrip. destruct (lstrip_suffix (rev s)) as [u H].
  exists (rev u). rewrite <- rev_app_distr, <- H. now rewrite rev_involutive.
Qed.

Lemma strip_clean_head (s : str) : clean_head (strip s).
Proof.
  unfold strip. pose proof (lstrip_clean s) as H.
  destruct (lstrip s) as [|c t]; [exact I |].
  simpl in H. now rewrite rstrip_cons.
Qed.

Lemma strip_clean_end (s : str) : clean_end (strip s).
Proof. apply rstrip_clean. Qed.

Lemma strip_fix (s : str) : clean_head s -> clean_end s -> strip s = s.
Proof.
  intros H1 H2. unfold strip. rewrite lstrip_fix by assumption.
  now apply rstrip_fix.
Qed.

Lemma strip_idempotent (s : str) : strip (strip s) = strip s.
Proof. apply strip_fix; [apply strip_clean_head | apply strip_clean_end]. Qed.

Lemma strip_sub (s : str) : exists u v, s = u ++ strip s ++ v.
Proof.
  unfold strip. destruct (lstrip_suffix s) as [u Hu].
  destruct (rstrip_prefix (lstrip s)) as [v Hv].
  exists u, v. now rewrite <- Hv.
Qed.

(** ** Normalisation of locators *)

Lemma occurs_char (c : ascii) (s : str) : occurs [c] s <-> In c s.
Proof.
  split.
  - intros [u [v ->]]. apply in_or_app. right. now left.
  - intros H. apply in_split in H. destruct H as [u [v ->]]. now exists u, v.
Qed.

Lemma find_char_cut (c : ascii) (a b : str) :
  ~ In c a -> find [c] (a ++ c :: b) = Some (length a).
Proof.
  induction a as [|d a IH]; intros H; rewrite find_unfold.
  - simpl. now rewrite Ascii.eqb_refl.
  - simpl app. cbn [starts_with].
    destruct (Ascii.eqb c d) eqn:E.
    + apply Ascii.eqb_eq in E. subst. exfalso. apply H. now left.
    + simpl. rewrite IH; [reflexivity |]. intros K. apply H. now right.
Qed.

Lemma first_cut (c : ascii) (s : str) :
  ~ In c s \/ exists a b, s = a ++ c :: b /\ ~ In c a.
Proof.
  induction s as [|d s IH]; [left; intros [] |].
  destruct (ascii_dec c d) as [->|N].
  - right. exists [], s. split; [reflexivity | intros []].
  - destruct IH as [H | [a [b [-> H]]]].
    + left. intros [K|K]; [congruence | contradiction].
    + right. exists (d :: a), b. split; [reflexivity |].
      intros [K|K]; [congruence | contradiction].
Qed.

Lemma strip_query_cut (a b : str) :
  ~ In "?"%char a -> strip_query (a ++ "?"%char :: b) = a.
Proof.
  intros H. unfold strip_query. rewrite first_piece_split.
  change (py "?") with ["?"%char]. rewrite find_char_cut by assumption.
  now rewrite firstn_app, Nat.sub_diag, firstn_all, app_nil_r.
Qed.

Lemma strip_query_fix (s : str) : no_query s -> strip_query s = s.
Proof.
  intros H. unfold strip_query. rewrite first_piece_split.
  change (py "?") with ["?"%char].
  replace (find ["?"%char] s) with (@None nat); [reflexivity |].
  symmetry. apply find_None. now rewrite occurs_char.
Qed.

Lemma strip_query_no_query (h : str) : no_query (strip_query h).
Proof.
  destruct (first_cut "?"%char h) as [H | [a [b [-> H]]]].
  - now rewrite strip_query_fix.
  - now rewrite strip_query_cut.
Qed.

Lemma strip_query_idempotent (h : str) : strip_query (strip_query h) = strip_query h.
Proof. apply strip_query_fix, strip_query_no_query. Qed.

(** A query appended to a locator does not change what is kept of it. *)
Lemma strip_query_append (x q : str) :
  strip_query (x ++ "?"%char :: q) = strip_query x.
Proof.
  destruct (first_cut "?"%char x) as [H | [a [b [-> H]]]].
  - now rewrite strip_query_cut, strip_query_fix.
  - rewrite <- app_assoc. simpl. now rewrite !strip_query_cut.
Qed.

Lemma no_query_sub (s u v : str) : no_query (u ++ s ++ v) -> no_query s.
Proof. unfold no_query. intros H K. apply H. rewrite !in_app_iff. tauto. Qed.

Lemma BASE_URL_nonempty : BASE_URL <> [].
Proof. discriminate. Qed.

Lemma BASE_URL_no_query : no_query BASE_URL.
Proof.
  unfold no_query, BASE_URL. simpl. intros H.
  repeat (destruct H as [H|H]; [discriminate |]). exact H.
Qed.

(** The normalised path is a piece of the locator without its query; it
    holds neither a query nor the base, and is stripped. *)
Lemma normalized_path_shape (h : str) :
  no_query (normalized_path h)
  /\ ~ occurs BASE_URL (normalized_path h)
  /\ clean_head (normalized_path h) /\ clean_end (normalized_path h).
Proof.
  unfold normalized_path.
  destruct (last_piece_split (strip_query h) BASE_URL_nonempty) as [H1 [u H2]].
  destruct (strip_sub (last_piece (split BASE_URL (strip_query h)))) as [a [b H3]].
  repeat split.
  - apply no_query_sub with (u := u ++ a) (v := b).
    rewrite <- app_assoc, <- H3, <- H2. apply strip_query_no_query.
  - apply occurs_sub with (u := a) (v := b). now rewrite <- H3.
  - apply strip_clean_head.
  - apply strip_clean_end.
Qed.

Lemma normalized_path_fix (p : str) :
  no_query p -> ~ occurs BASE_URL p -> clean_head p -> clean_end p ->
  normalized_path p = p.
Proof.
  intros H1 H2 H3 H4. unfold normalized_path.
  rewrite strip_query_fix by assumption.
  rewrite split_no_sep by now apply find_None.
  now apply strip_fix.
Qed.

Lemma normalized_path_base (p : str) :
  no_query p -> ~ occurs BASE_URL p -> clean_head p -> clean_end p ->
  normalized_path (BASE_URL ++ p) = p.
Proof.
  intros H1 H2 H3 H4. unfold normalized_path.
  rewrite strip_query_fix.
  - rewrite (last_piece_split_prefix BASE_URL_nonempty H2). now apply strip_fix.
  - unfold no_query. rewrite in_app_iff. intros [K|K]; [| contradiction].
    now apply BASE_URL_no_query.
Qed.

Lemma full_url_no_query (h : str) : no_query (full_url h).
Proof.
  unfold full_url, no_query. rewrite in_app_iff. intros [K|K].
  - now apply BASE_URL_no_query.
  - destruct (normalized_path_shape h) as [H _]. now apply H.
Qed.

Lemma normalized_path_append (x q : str) :
  normalized_path (x ++ "?"%char :: q) = normalized_path x.
Proof. unfold normalized_path. now rewrite strip_query_append. Qed.

Lemma normalized_path_idempotent (x : str) :
  normalized_path (normalized_path x) = normalized_path x.
Proof.
  destruct (normalized_path_shape x) as [H1 [H2 [H3 H4]]].
  now apply normalized_path_fix.
Qed.

Lemma full_url_idempotent (x : str) : full_url (full_url x) = full_url x.
Proof.
  destruct (normalized_path_shape x) as [H1 [H2 [H3 H4]]].
  unfold full_url at 1 2. now rewrite normalized_path_base.
Qed.

(** C5. Locator normalisation is query-insensitive and idempotent: the
    artist locator [BASE_URL + normalized_path] that link discovery builds,
    its deduplication key [normalized_path], and the album locator
    [href.split("?")[0]] are unchanged by an appended query component, and
    applying any of them twice is the same as applying it once. *)
Theorem normalization_idempotent_query_insensitive (x q : str) :
  full_url (x ++ py "?" ++ q) = full_url x
  /\ full_url (full_url x) = full_url x
  /\ normalized_path (x ++ py "?" ++ q) = normalized_path x
  /\ normalized_path (normalized_path x) = normalized_path x
  /\ strip_query (x ++ py "?" ++ q) = strip_query x
  /\ strip_query (strip_query x) = strip_query x.
Proof.
  change (py "?" ++ q) with ("?"%char :: q). repeat split.
  - unfold full_url. now rewrite normalized_path_append.
  - apply full_url_idempotent.
  - apply normalized_path_append.
  - apply normalized_path_idempotent.
  - apply strip_query_append.
  - apply strip_query_idempotent.
Qed.

(** ** [safe_text] *)

Lemma safe_text_Ret (elem : WebElement) (t : str) :
  safe_text elem = Ret t -> clean_head t /\ clean_end t.
Proof.
  unfold safe_text. destruct (text elem) as [s|e].
  - intros E. injection E as <-. split; [apply strip_clean_head | apply strip_clean_end].
  - destruct (safe_text_catches e); [| discriminate].
    intros E. injection E as <-. split; exact I.
Qed.


(** ** Link discovery *)

Lemma first_occurrences_In (x : str) (l : list str) :
  In x (first_occurrences l) <-> In x l.
Proof.
  induction l as [|y l IH]; simpl; [tauto |].
  rewrite filter_In, IH, negb_true_iff, str_eqb_neq.
  destruct (list_eq_dec ascii_dec y x) as [E|E]; [tauto |].
  split; [tauto |]. intros [H|H]; [tauto |]. right. split; congruence.
Qed.

Lemma first_occurrences_NoDup (l : list str) : NoDup (first_occurrences l).
Proof.
  induction l as [|y l IH]; simpl; constructor.
  - rewrite filter_In, negb_true_iff, str_eqb_neq. tauto.
  - now apply NoDup_filter.
Qed.

Lemma filter_twice (A : Type) (f g : A -> bool) (l : list A) :
  filter f (filter g l) = filter (fun x => g x && f x) l.
Proof.
  induction l as [|x l IH]; simpl; [reflexivity |].
  destruct (g x); simpl; [| assumption].
  destruct (f x); now rewrite IH.
Qed.

Lemma geb_true (a b : Z) : (a >=? b)%Z = true <-> (b <= a)%Z.
Proof. rewrite Z.geb_leb. apply Z.leb_le. Qed.

Lemma geb_false (a b : Z) : (a >=? b)%Z = false <-> (a < b)%Z.
Proof. rewrite Z.geb_leb. apply Z.leb_gt. Qed.

(** The loop's way of skipping what was seen computes the first
    occurrences. *)
Lemma list_of_set_filter (l seen : list str) :
  list_of_set l seen = filter (fun y => negb (mem y seen)) (first_occurrences l).
Proof.
  revert seen. induction l as [|x l IH]; intros seen; simpl; [reflexivity |].
  destruct (mem x seen) eqn:M; simpl.
  - rewrite IH, filter_twice. apply filter_ext. intros y.
    destruct (str_eqb y x) eqn:E; simpl; [| reflexivity].
    apply str_eqb_eq in E. subst. now rewrite M.
  - f_equal. rewrite IH, filter_twice. apply filter_ext. intros y. simpl.
    now rewrite negb_orb.
Qed.

Lemma list_of_set_first_occurrences (l : list str) :
  list_of_set l [] = first_occurrences l.
Proof.
  rewrite list_of_set_filter. apply forallb_filter_id.
  apply forallb_forall. reflexivity.
Qed.

Lemma list_of_set_app (l1 l2 seen : list str) :
  list_of_set (l1 ++ l2) seen =
  list_of_set l1 seen ++ list_of_set l2 (rev (list_of_set l1 seen) ++ seen).
Proof.
  revert seen. induction l1 as [|x l1 IH]; intros seen; simpl; [reflexivity |].
  destruct (mem x seen); [apply IH |].
  rewrite IH. simpl. now rewrite <- app_assoc.
Qed.

Lemma firstn_app_le (A : Type) (n : nat) (a b : list A) :
  n <= length a -> firstn n (a ++ b) = firstn n a.
Proof.
  intros H. rewrite firstn_app. replace (n - length a) with 0 by lia.
  now rewrite firstn_O, app_nil_r.
Qed.

Lemma firstn_app_all (A : Type) (n : nat) (a b : list A) :
  length a = n -> firstn n (a ++ b) = a.
Proof.
  intros H. rewrite firstn_app_le by lia. apply firstn_all2. lia.
Qed.

Lemma consistent_length (st : Collected) :
  consistent st -> length (artists st) = length (seen_paths st).
Proof. unfold consistent. intros ->. now rewrite length_map, length_rev. Qed.

Lemma scan_links_spec (limit : Z) (cands : list WebElement) (st : Collected) :
  consistent st -> (len (artists st) < limit)%Z ->
  consistent (scan_links limit cands st)
  /\ rev (seen_paths (scan_links limit cands st)) =
     firstn (Z.to_nat limit)
            (rev (seen_paths st)
             ++ list_of_set (map normalized_path (section_hrefs cands))
                            (seen_paths st)).
Proof.
  revert st. induction cands as [|a rest IH]; intros st C L.
  - simpl. rewrite app_nil_r. split; [assumption |].
    symmetry. apply firstn_all2. rewrite length_rev.
    rewrite <- (consistent_length C). unfold len in L. lia.
  - assert (K : rev (seen_paths st) = firstn (Z.to_nat limit) (rev (seen_paths st) ++ [])).
    { rewrite app_nil_r. symmetry. apply firstn_all2. rewrite length_rev.
      rewrite <- (consistent_length C). unfold len in L. lia. }
    cbn [scan_links section_hrefs].
    destruct (href a) as [[x|]|e]; [| now apply IH | now split].
    destruct (falsy (Some x) || negb (contains (py "/artist/") x)); [now apply IH |].
    cbn [map list_of_set]. destruct (mem (normalized_path x) (seen_paths st)) eqn:M.
    + replace (len (artists st) >=? limit)%Z with false
        by (symmetry; now apply geb_false).
      now apply IH.
    + cbn [artists seen_paths].
      assert (C' : consistent (mkCollected (normalized_path x :: seen_paths st)
                                           (artists st ++ [full_url x]))).
      { unfold consistent in *. cbn [artists seen_paths rev].
        rewrite map_app, C. reflexivity. }
      destruct (len (artists st ++ [full_url x]) >=? limit)%Z eqn:G.
      * split; [assumption |]. cbn [seen_paths]. simpl rev.
        change (rev (seen_paths st) ++
                normalized_path x :: list_of_set (map normalized_path (section_hrefs rest))
                                                 (normalized_path x :: seen_paths st))
          with (rev (seen_paths st) ++
                [normalized_path x] ++ list_of_set (map normalized_path (section_hrefs rest))
                                                   (normalized_path x :: seen_paths st)).
        rewrite app_assoc. symmetry. apply firstn_app_all.
        rewrite length_app, length_rev, <- (consistent_length C). simpl.
        apply geb_true in G. unfold len in *. rewrite length_app in G.
        simpl in G. lia.
      * apply geb_false in G.
        destruct (IH _ C') as [H1 H2]; [exact G |]. split; [assumption |].
        rewrite H2. cbn [seen_paths]. simpl rev. now rewrite <- app_assoc.
Qed.

Lemma scan_sections_spec (limit : Z) (section : str -> outcome (list WebElement))
    (selectors : list str) (st : Collected) :
  consistent st -> length (seen_paths st) <= Z.to_nat limit ->
  consistent (scan_sections limit section selectors st)
  /\ rev (seen_paths (scan_sections limit section selectors st)) =
     firstn (Z.to_nat limit)
            (rev (seen_paths st)
             ++ list_of_set (map normalized_path (listing_hrefs section selectors))
                            (seen_paths st)).
Proof.
  revert st. induction selectors as [|sel rest IH]; intros st C L.
  - simpl. rewrite app_nil_r. split; [assumption |].
    symmetry. apply firstn_all2. now rewrite length_rev.
  - unfold listing_hrefs. cbn [scan_sections flat_map]. fold (listing_hrefs section rest).
    destruct (len (artists st) >=? limit)%Z eqn:G.
    + split; [assumption |]. symmetry. apply firstn_app_all.
      rewrite length_rev. apply geb_true in G. unfold len in G.
      rewrite (consistent_length C) in G. lia.
    + apply geb_false in G.
      destruct (section sel) as [cands|e]; [| now apply IH].
      destruct (@scan_links_spec limit cands st C G) as [C1 E1].
      set (st1 := scan_links limit cands st) in *.
      set (D1 := list_of_set (map normalized_path (section_hrefs cands)) (seen_paths st)) in *.
      assert (L1 : length (seen_paths st1) <= Z.to_nat limit).
      { rewrite <- length_rev, E1. apply firstn_le_length. }
      destruct (IH st1 C1 L1) as [C2 E2]. split; [assumption |].
      rewrite E2, map_app, list_of_set_app. fold D1.
      destruct (le_lt_dec (length (rev (seen_paths st) ++ D1)) (Z.to_nat limit)) as [A|B].
      * rewrite firstn_all2 in E1 by assumption.
        assert (S1 : seen_paths st1 = rev D1 ++ seen_paths st).
        { rewrite <- (rev_involutive (seen_paths st1)), E1, rev_app_distr.
          now rewrite rev_involutive. }
        rewrite E1, S1. now rewrite <- app_assoc.
      * assert (Hk : length (rev (seen_paths st1)) = Z.to_nat limit)
          by (rewrite E1, length_firstn; lia).
        rewrite (firstn_app_all _ _ Hk), app_assoc.
        rewrite (@firstn_app_le _ _ (rev (seen_paths st) ++ D1)) by lia.
        exact E1.
Qed.

Lemma get_artists_by_genre_spec (page : GenrePage) (limit : Z) :
  genre_get page = Ret tt -> genre_wait page = Ret tt ->
  get_artists_by_genre page limit =
  Ret (discover_spec (listing_hrefs (genre_section page) LIST_SELECTORS) limit).
Proof.
  intros G W. unfold get_artists_by_genre. rewrite G, W. simpl bind. f_equal.
  destruct (@scan_sections_spec limit (genre_section page) LIST_SELECTORS
              (mkCollected [] [])) as [C E].
  - reflexivity.
  - simpl. lia.
  - rewrite C, E. simpl rev. simpl app.
    rewrite list_of_set_first_occurrences. unfold discover_spec.
    now rewrite firstn_map.
Qed.

Lemma discover_spec_length (hrefs : list str) (cap : Z) :
  (0 <= cap)%Z -> (len (discover_spec hrefs cap) <= cap)%Z.
Proof.
  intros H. unfold len, discover_spec. rewrite length_firstn. lia.
Qed.

Lemma In_firstn (A : Type) (n : nat) (l : list A) (x : A) :
  In x (firstn n l) -> In x l.
Proof.
  intros H. rewrite <- (firstn_skipn n l). apply in_or_app. now left.
Qed.

Lemma NoDup_firstn (A : Type) (n : nat) (l : list A) : NoDup l -> NoDup (firstn n l).
Proof.
  intros H. rewrite <- (firstn_skipn n l) in H. now apply NoDup_app_remove_r in H.
Qed.

Lemma discover_spec_paths (hrefs : list str) (cap : Z) :
  map normalized_path (discover_spec hrefs cap) =
  firstn (Z.to_nat cap) (first_occurrences (map normalized_path hrefs)).
Proof.
  unfold discover_spec. rewrite <- firstn_map, map_map. f_equal.
  rewrite <- (map_id (first_occurrences (map normalized_path hrefs))) at 2.
  apply map_ext_in. intros p H.
  apply first_occurrences_In, in_map_iff in H. destruct H as [h [<- _]].
  destruct (normalized_path_shape h) as [H1 [H2 [H3 H4]]].
  now apply normalized_path_base.
Qed.

Lemma NoDup_map_app (b : str) (l : list str) : NoDup l -> NoDup (map (app b) l).
Proof.
  induction 1 as [|x l N _ IH]; simpl; constructor; [| assumption].
  rewrite in_map_iff. intros [y [E Hy]]. apply app_inv_head in E. now subst.
Qed.

Lemma discover_spec_NoDup (hrefs : list str) (cap : Z) :
  NoDup (discover_spec hrefs cap)
  /\ NoDup (map normalized_path (discover_spec hrefs cap)).
Proof.
  split.
  - unfold discover_spec. apply NoDup_firstn, NoDup_map_app.
    apply first_occurrences_NoDup.
  - rewrite discover_spec_paths. apply NoDup_firstn, first_occurrences_NoDup.
Qed.

(** The cap of link discovery, for every cap that is not negative. *)
Lemma get_artists_by_genre_cap (page : GenrePage) (limit : Z) (l : list str) :
  (0 <= limit)%Z -> get_artists_by_genre page limit = Ret l -> (len l <= limit)%Z.
Proof.
  intros H. unfold get_artists_by_genre.
  destruct (genre_get page) as [[]|e] eqn:G; simpl; [| discriminate].
  destruct (genre_wait page) as [[]|e] eqn:W.
  - pose proof (get_artists_by_genre_spec page limit G W) as E.
    unfold get_artists_by_genre in E. rewrite G, W in E. simpl in E.
    rewrite E. intros K. injection K as <-. now apply discover_spec_length.
  - intros K. injection K as <-. exact H.
Qed.

(** C4. When the genre page loads and its first list appears, link
    discovery returns what the specification describes: the locators of the
    qualifying targets, section after section and in document order inside a
    section, each normalised form kept where it is first seen, cut at the
    cap.  No locator and no normalised path occurs twice in it. *)
Theorem discovery_dedup_first_seen (page : GenrePage) (limit : Z) :
  genre_get page = Ret tt -> genre_wait page = Ret tt ->
  let hrefs := listing_hrefs (genre_section page) LIST_SELECTORS in
  get_artists_by_genre page limit = Ret (discover_spec hrefs limit)
  /\ NoDup (discover_spec hrefs limit)
  /\ NoDup (map normalized_path (discover_spec hrefs limit)).
Proof.
  intros G W hrefs. split.
  - now apply get_artists_by_genre_spec.
  - apply discover_spec_NoDup.
Qed.

Lemma discovery_dedup_first_seen_witness :
  get_artists_by_genre two_lists_page 10 =
  Ret [py "https://www.discogs.com/artist/1-A";
       py "https://www.discogs.com/artist/2-B";
       py "https://www.discogs.com/artist/3-C"]
  /\ NoDup (discover_spec (listing_hrefs (genre_section two_lists_page)
                                         LIST_SELECTORS) 10).
Proof.
  destruct (@discovery_dedup_first_seen two_lists_page 10 eq_refl eq_refl)
    as [H1 [H2 _]].
  split; [| exact H2]. rewrite H1. vm_compute. reflexivity.
Defined.

(** ** Album links of an artist *)

Lemma scan_album_links_no_query (album_limit : Z) (cands : list WebElement)
    (seen acc l : list str) :
  Forall no_query acc ->
  scan_album_links album_limit cands seen acc = Ret l -> Forall no_query l.
Proof.
  revert seen acc. induction cands as [|a rest IH]; intros seen acc F;
    cbn [scan_album_links].
  - intros E. now injection E as <-.
  - destruct (href a) as [[x|]|e]; cbn [bind]; [| now apply IH | discriminate].
    assert (F' : Forall no_query (acc ++ [strip_query x])).
    { apply Forall_app. split; [assumption |].
      constructor; [apply strip_query_no_query | constructor]. }
    destruct (negb (falsy (Some x)) && _); [| now apply IH].
    destruct (mem (strip_query x) seen); [now apply IH |].
    destruct (len (acc ++ [strip_query x]) >=? album_limit)%Z; [| now apply IH].
    intros E. now injection E as <-.
Qed.

Lemma collect_album_links_no_query (p : ArtistPage) (album_limit : Z) :
  Forall no_query (collect_album_links p album_limit).
Proof.
  unfold collect_album_links.
  destruct (candidate_links p) as [c|e]; simpl; [| constructor].
  destruct (scan_album_links album_limit c [] []) as [l|e] eqn:E; simpl;
    [| constructor].
  now apply scan_album_links_no_query in E.
Qed.

Lemma scan_album_links_cap (album_limit : Z) (cands : list WebElement)
    (seen acc l : list str) :
  (len acc < album_limit)%Z ->
  scan_album_links album_limit cands seen acc = Ret l -> (len l <= album_limit)%Z.
Proof.
  revert seen acc. induction cands as [|a rest IH]; intros seen acc L;
    cbn [scan_album_links].
  - intros E. injection E as <-. lia.
  - destruct (href a) as [[x|]|e]; cbn [bind]; [| now apply IH | discriminate].
    destruct (negb (falsy (Some x)) && _); [| now apply IH].
    destruct (mem (strip_query x) seen); [now apply IH |].
    destruct (len (acc ++ [strip_query x]) >=? album_limit)%Z eqn:G.
    + intros E. injection E as <-. unfold len in *.
      rewrite length_app. cbn [length]. lia.
    + apply geb_false in G. now apply IH.
Qed.

(** The cap of the album links, for every cap from 1 on. *)
Lemma collect_album_links_cap (p : ArtistPage) (album_limit : Z) :
  (1 <= album_limit)%Z -> (len (collect_album_links p album_limit) <= album_limit)%Z.
Proof.
  intros H. unfold collect_album_links.
  destruct (candidate_links p) as [c|e]; cbn [bind try_except];
    [| unfold len; simpl; lia].
  destruct (scan_album_links album_limit c [] []) as [l|e] eqn:E;
    cbn [try_except]; [| unfold len; simpl; lia].
  apply scan_album_links_cap in E; [assumption | unfold len; simpl; lia].
Qed.

Lemma collect_albums_length (album_page : str -> AlbumPage)
    (album_links : list str) (acc l : list Album) :
  collect_albums album_page album_links acc = Ret l ->
  length l <= length acc + length album_links.
Proof.
  revert acc. induction album_links as [|u rest IH]; intros acc; simpl.
  - intros E. injection E as <-. lia.
  - destruct (get_album_data (album_page u) u) as [[a|]|e]; simpl;
      [| | discriminate]; intros E; apply IH in E.
    + rewrite length_app in E. simpl in E. lia.
    + lia.
Qed.

(** The cap of the albums of an artist record, for every cap from 1 on. *)
Lemma get_artist_data_cap (p : ArtistPage) (artist_url genre : str)
    (album_limit : Z) (a : Artist) :
  (1 <= album_limit)%Z ->
  get_artist_data p artist_url genre album_limit = Ret (Some a) ->
  (Z.of_nat (length (albums a)) <= album_limit)%Z.
Proof.
  intros H. unfold get_artist_data.
  destruct (artist_get p); [| discriminate].
  destruct (artist_wait p); [| discriminate].
  destruct (collect_albums _ _ _) as [l|e] eqn:E; simpl; [| discriminate].
  intros K. injection K as <-. simpl.
  apply collect_albums_length in E.
  pose proof (collect_album_links_cap p H) as C. unfold len in C. simpl in E. lia.
Qed.

(** C3. With the cap 0 the album collection of [get_artist_data] still
    takes the first qualifying link, since the cap is only compared after a
    link was appended: the record of the test page then holds one album,
    where the cap allows none.  (Link discovery tests its cap before it reads
    a section and returns no locator for the cap 0.) *)
Theorem album_cap_zero_exceeded :
  collect_album_links test_band_page 0 = [py "/release/100"]
  /\ (exists a, get_artist_data test_band_page (py "url") (py "Rock") 0 = Ret (Some a)
                /\ length (albums a) = 1)
  /\ get_artists_by_genre two_lists_page 0 = Ret [].
Proof.
  split; [vm_compute; reflexivity |]. split; [| vm_compute; reflexivity].
  eexists. split; [vm_compute; reflexivity | reflexivity].
Qed.

(** C9. Every locator that link discovery returns is the base followed by
    the normalised path of a target offered by the listing and holds no
    question mark; and no album link collected from an artist page holds a
    question mark. *)
Theorem locators_without_query (page : GenrePage) (limit : Z) (l : list str)
    (p : ArtistPage) (album_limit : Z) :
  get_artists_by_genre page limit = Ret l ->
  (forall u, In u l ->
     no_query u
     /\ exists h, In h (listing_hrefs (genre_section page) LIST_SELECTORS)
                  /\ u = BASE_URL ++ normalized_path h)
  /\ (forall u, In u (collect_album_links p album_limit) -> no_query u).
Proof.
  intros E. split.
  - unfold get_artists_by_genre in E.
    destruct (genre_get page) as [[]|e] eqn:G; simpl in E; [| discriminate].
    destruct (genre_wait page) as [[]|e] eqn:W.
    + pose proof (get_artists_by_genre_spec page limit G W) as S.
      unfold get_artists_by_genre in S. rewrite G, W in S. simpl in S.
      rewrite S in E. injection E as <-. intros u H.
      unfold discover_spec in H. apply In_firstn in H.
      apply in_map_iff in H. destruct H as [q [<- H]].
      apply first_occurrences_In, in_map_iff in H. destruct H as [h [<- H]].
      split; [apply full_url_no_query | now exists h].
    + injection E as <-. intros u [].
  - apply Forall_forall, collect_album_links_no_query.
Qed.

Lemma locators_without_query_witness :
  (forall u, In u [py "https://www.discogs.com/artist/1-A";
                   py "https://www.discogs.com/artist/2-B"] ->
     no_query u
     /\ exists h, In h (listing_hrefs (genre_section two_lists_page) LIST_SELECTORS)
                  /\ u = BASE_URL ++ normalized_path h)
  /\ (forall u, In u (collect_album_links test_band_page 2) -> no_query u).
Proof.
  apply (@locators_without_query two_lists_page 2 _ test_band_page 2).
  vm_compute. reflexivity.
Defined.

(** ** Track list *)

Lemma clean_end_tail (c : ascii) (s : str) :
  s <> [] -> clean_end (c :: s) -> clean_end s.
Proof.
  unfold clean_end. simpl. intros N.
  assert (R : rev s <> []).
  { intros E. apply N. rewrite <- (rev_involutive s), E. reflexivity. }
  destruct (rev s); [congruence | trivial].
Qed.

Lemma newline_is_space : is_space newline = true.
Proof. reflexivity. Qed.

(** On a stripped string the pattern [\d*$] asks for digits only. *)
Lemma digits_to_end_clean (s : str) :
  clean_end s -> digits_to_end s = forallb is_digit s.
Proof.
  induction s as [|c s IH]; intros C; [reflexivity |].
  destruct s as [|d s].
  - simpl. unfold clean_end in C. simpl in C.
    destruct (Ascii.eqb c newline) eqn:E.
    + apply Ascii.eqb_eq in E. subst. rewrite newline_is_space in C. discriminate.
    + now rewrite orb_false_r, andb_true_r.
  - change (digits_to_end (c :: d :: s)) with (is_digit c && digits_to_end (d :: s)).
    rewrite IH; [reflexivity |]. apply clean_end_tail with (c := c); [discriminate | assumption].
Qed.

Lemma match_digits_clean (n : str) :
  clean_end n -> (match_digits n = true <-> purely_numeric n).
Proof.
  intros C. unfold purely_numeric. destruct n as [|c s].
  - simpl. split; [discriminate | intros [N _]; congruence].
  - unfold match_digits. destruct s as [|d s].
    + simpl. rewrite andb_true_r. split; [intros H; split; [discriminate | assumption] | tauto].
    + rewrite digits_to_end_clean
        by (apply clean_end_tail with (c := c); [discriminate | assumption]).
      split; [intros H; split; [discriminate | exact H] | intros [_ H]; exact H].
Qed.

Lemma restates_album_spec (album_name_raw : option str) (n : str) :
  restates_album album_name_raw n = true <->
  exists a, album_name_raw = Some a /\ a <> [] /\ occurs a n
            /\ length n < length a + 10.
Proof.
  unfold restates_album. destruct album_name_raw as [a|].
  - rewrite !andb_true_iff, contains_occurs, Z.ltb_lt, negb_true_iff. split.
    + intros [[F O] L]. exists a. repeat split; try assumption.
      * intros ->. discriminate.
      * lia.
    + intros [b [E [N [O L]]]]. injection E as <-. repeat split; try assumption.
      * destruct a; [congruence | reflexivity].
      * lia.
  - split; [discriminate | intros [a [E _]]; discriminate].
Qed.

(** On stripped names the condition of the code is the filter. *)
Lemma discarded_spec (album_name_raw name : option str) :
  (forall n, name = Some n -> clean_end n) ->
  (discarded album_name_raw name = true <-> discard_spec album_name_raw name).
Proof.
  intros C. destruct name as [n|]; simpl; [| tauto].
  rewrite !orb_true_iff, (@match_digits_clean n (C n eq_refl)), restates_album_spec.
  destruct n as [|c n]; simpl.
  - split; [now left | intros _; left; now left].
  - split.
    + intros [[H|H]|H]; [discriminate | tauto | tauto].
    + intros [H|[H|H]]; [discriminate | tauto | tauto].
Qed.

Lemma first_long_text_clean (all_texts : list WebElement) (d : option str) (n : str) :
  first_long_text all_texts d = Ret (Some n) -> clean_end n.
Proof.
  induction all_texts as [|t rest IH]; cbn [first_long_text]; [discriminate |].
  destruct (safe_text t) as [x|e] eqn:E; cbn [bind]; [| discriminate].
  destruct (negb (falsy (Some x)) && differs x d && (5 <? length x)); [| assumption].
  intros K. injection K as <-. now apply safe_text_Ret in E.
Qed.

(** Every name of a row is stripped. *)
Lemma row_name_clean (r : TrackRow) (d : option str) (n : str) :
  row_name r d = Ret (Some n) -> clean_end n.
Proof.
  unfold row_name. destruct (row_title r) as [e|x].
  - destruct (safe_text e) as [t|x] eqn:E; cbn [bind]; [| discriminate].
    intros K. injection K as <-. now apply safe_text_Ret in E.
  - destruct x; try discriminate.
    destruct (row_texts r) as [l|x]; cbn [bind]; [| discriminate].
    apply first_long_text_clean.
Qed.

(** One round of the row loop: a row whose name the filter rejects leaves
    the counter and the list as they are, any other row appends its track
    under the current number and advances the counter. *)
Lemma scan_rows_step (album_name_raw : option str) (r : TrackRow)
    (d name : option str) (rest : list TrackRow) (tn : Z) (acc : list Track) :
  row_dur_raw r = Ret d -> row_name r d = Ret name ->
  (discard_spec album_name_raw name ->
   scan_rows album_name_raw (r :: rest) tn acc =
   scan_rows album_name_raw rest tn acc)
  /\ (~ discard_spec album_name_raw name ->
      exists n, name = Some n
                /\ scan_rows album_name_raw (r :: rest) tn acc =
                   scan_rows album_name_raw rest (tn + 1)
                             (acc ++ [mkTrack tn n d])).
Proof.
  intros D N. cbn [scan_rows]. rewrite D. cbn [bind]. rewrite N. cbn [bind].
  assert (C : forall n, name = Some n -> clean_end n).
  { intros n ->. now apply row_name_clean in N. }
  pose proof (discarded_spec album_name_raw C) as S.
  destruct name as [n|].
  - destruct (discarded album_name_raw (Some n)).
    + split; [reflexivity |]. intros K. exfalso. apply K, S. reflexivity.
    + split; [| intros _; now exists n].
      intros K. apply S in K. discriminate.
  - split; [reflexivity |]. intros K. exfalso. now apply K.
Qed.

(** C2. A candidate row is discarded, with no track emitted and the counter
    not advanced, exactly when its name is missing or empty, purely numeric,
    or holds the non-empty album name while being fewer than 10 characters
    longer than it.  A row named "12" and a row named as the album are
    discarded under every album name; a row with a distinct valid name and no
    duration cell yields a track whose duration is null. *)
Theorem integrity_filter :
  (forall album_name_raw r d name rest tn acc,
     row_dur_raw r = Ret d -> row_name r d = Ret name ->
     (discard_spec album_name_raw name ->
      scan_rows album_name_raw (r :: rest) tn acc =
      scan_rows album_name_raw rest tn acc)
     /\ (~ discard_spec album_name_raw name ->
         exists n, name = Some n
                   /\ scan_rows album_name_raw (r :: rest) tn acc =
                      scan_rows album_name_raw rest (tn + 1)
                                (acc ++ [mkTrack tn n d])))
  /\ (forall album_name_raw, discard_spec album_name_raw (Some (py "12")))
  /\ (forall a, discard_spec (Some a) (Some a))
  /\ (forall album_name_raw r n rest tn acc,
        row_duration r = missing -> row_name r None = Ret (Some n) ->
        ~ discard_spec album_name_raw (Some n) ->
        scan_rows album_name_raw (r :: rest) tn acc =
        scan_rows album_name_raw rest (tn + 1) (acc ++ [mkTrack tn n None])).
Proof.
  split; [apply scan_rows_step |]. split; [| split].
  - intros alb. right. left. split; [discriminate | reflexivity].
  - intros a. destruct a as [|c a]; [now left |]. right. right.
    exists (c :: a). repeat split; [discriminate | | lia].
    exists [], []. now rewrite app_nil_r.
  - intros alb r n rest tn acc D N K.
    assert (D' : row_dur_raw r = Ret None) by (unfold row_dur_raw; now rewrite D).
    destruct (@scan_rows_step alb r None (Some n) rest tn acc D' N) as [_ H].
    destruct (H K) as [m [E ->]]. now injection E as <-.
Qed.

Lemma integrity_filter_witness :
  scan_rows (Some (py "AB")) [titled_row "12"; titled_row "Second Song"] 1 [] =
  Ret [mkTrack 1 (py "Second Song") None].
Proof.
  destruct integrity_filter as [H [H12 _]].
  destruct (H (Some (py "AB")) (titled_row "12") None (Some (py "12"))
              [titled_row "Second Song"] 1%Z [] eq_refl eq_refl) as [H1 _].
  rewrite (H1 (H12 _)). reflexivity.
Defined.

(** The filter as worded is not the one applied: a name that holds the
    album name and is exactly 10 characters longer passes, and its row yields
    a track. *)
Lemma integrity_filter_ten_longer :
  discard_claimed (Some (py "AB")) (Some (py "AB0123456789"))
  /\ scan_rows (Some (py "AB")) [titled_row "AB0123456789"] 1 [] =
     Ret [mkTrack 1 (py "AB0123456789") None].
Proof.
  split; [| reflexivity]. right. right. exists (py "AB").
  split; [reflexivity |]. split; [| simpl; lia].
  now exists [], (py "0123456789").
Qed.

Lemma scan_rows_survivors (album_name_raw : option str) (rows : list TrackRow)
    (tn : Z) (acc : list Track) :
  scan_rows album_name_raw rows tn acc =
  (s <- survivors album_name_raw rows ;; Ret (acc ++ number_from tn s)).
Proof.
  revert tn acc. induction rows as [|r rest IH]; intros tn acc;
    cbn [scan_rows survivors].
  - cbn [bind number_from]. now rewrite app_nil_r.
  - destruct (row_dur_raw r) as [d|e]; cbn [bind]; [| reflexivity].
    destruct (row_name r d) as [[n|]|e]; cbn [bind]; [| | reflexivity].
    + destruct (discarded album_name_raw (Some n)); rewrite IH;
        destruct (survivors album_name_raw rest) as [s|e]; cbn [bind];
        try reflexivity.
      cbn [number_from]. now rewrite <- app_assoc.
    + rewrite IH. now destruct (survivors album_name_raw rest).
Qed.

Lemma number_from_numbers (l : list (str * option str)) (k : nat) :
  map track_number (number_from (Z.of_nat k) l) = map Z.of_nat (seq k (length l)).
Proof.
  revert k. induction l as [|[n d] l IH]; intros k; [reflexivity |].
  cbn [number_from map length seq track_number]. f_equal.
  replace (Z.of_nat k + 1)%Z with (Z.of_nat (S k)) by lia. apply IH.
Qed.

Lemma number_from_length (l : list (str * option str)) (tn : Z) :
  length (number_from tn l) = length l.
Proof.
  revert tn. induction l as [|[n d] l IH]; intros tn; simpl; [| rewrite IH];
    reflexivity.
Qed.

Lemma number_from_ascending (l : list (str * option str)) (tn : Z) :
  ascending (number_from tn l).
Proof.
  revert tn. induction l as [|[n d] l IH]; intros tn; [exact I |].
  cbn [number_from]. specialize (IH (tn + 1)%Z).
  destruct l as [|[n' d'] l']; [exact I |].
  cbn [number_from ascending track_number] in *. split; [lia | exact IH].
Qed.

(** Sorting a list whose numbers do not decrease changes nothing. *)
Lemma sorted_ascending (l : list Track) : ascending l -> sorted l = l.
Proof.
  induction l as [|t l IH]; intros A; [reflexivity |].
  cbn [sorted]. destruct l as [|u l'].
  - reflexivity.
  - destruct A as [L A]. rewrite (IH A). cbn [insert_track].
    replace (track_number t <=? track_number u)%Z with true; [reflexivity |].
    symmetry. now apply Z.leb_le.
Qed.

Lemma extract_tracks_numbered (p : AlbumPage) (album_name_raw : option str) :
  exists s, extract_tracks p album_name_raw = number_from 1 s
            /\ forall rows, track_rows p = Ret rows ->
               forall s', survivors album_name_raw rows = Ret s' -> s = s'.
Proof.
  unfold extract_tracks. destruct (track_rows p) as [rows|e]; cbn [bind try_except].
  - rewrite scan_rows_survivors.
    destruct (survivors album_name_raw rows) as [s|e] eqn:S; cbn [bind try_except].
    + exists s. split; [reflexivity |]. intros ? E ? E'. congruence.
    + exists []. split; [reflexivity |]. intros ? E ? E'. congruence.
  - exists []. split; [reflexivity |]. intros ? E. discriminate.
Qed.

(** C6. The tracks of an album are the rows that pass the filter, in scan
    order, numbered 1, 2, ..., N without a gap or a repetition whatever the
    number of rows filtered out; sorting them by track number returns the
    same list, and this is the list the album record holds. *)
Theorem track_numbers_sequential (p : AlbumPage) (album_name_raw : option str) :
  let ts := extract_tracks p album_name_raw in
  map track_number ts = map Z.of_nat (seq 1 (length ts))
  /\ sorted ts = ts
  /\ (forall rows s, track_rows p = Ret rows ->
        survivors album_name_raw rows = Ret s -> ts = number_from 1 s)
  /\ (forall album_url a, get_album_data p album_url = Ret (Some a) ->
        tracks a = extract_tracks p (album_name a)
        /\ map track_number (tracks a) = map Z.of_nat (seq 1 (length (tracks a)))).
Proof.
  assert (N : forall alb,
             map track_number (extract_tracks p alb) =
             map Z.of_nat (seq 1 (length (extract_tracks p alb)))
             /\ sorted (extract_tracks p alb) = extract_tracks p alb).
  { intros alb. destruct (extract_tracks_numbered p alb) as [s [-> _]]. split.
    - rewrite number_from_length. apply (number_from_numbers s 1).
    - apply sorted_ascending, number_from_ascending. }
  intros ts. split; [apply N |]. split; [apply N |]. split.
  - intros rows s R S. subst ts.
    destruct (extract_tracks_numbered p album_name_raw) as [s' [-> U]].
    now rewrite (U rows R s S).
  - intros album_url a. unfold get_album_data.
    destruct (album_get p); [| discriminate].
    destruct (page_source p) as [html|e]; cbn [bind]; [| discriminate].
    destruct (extract_album_name p) as [name|e]; cbn [bind]; [| discriminate].
    intros E. injection E as <-. cbn [tracks album_name].
    destruct (N name) as [N1 N2]. rewrite N2. split; [reflexivity | exact N1].
Qed.

(** ** Release year *)

Lemma findall_years_groups (skip : nat) (prev : option ascii) (s : str) (y : str) :
  In y (findall_years_from skip prev s) -> y = py "19" \/ y = py "20".
Proof.
  revert skip prev. induction s as [|c s IH]; intros skip prev; [intros [] |].
  cbn [findall_years_from]. destruct skip as [|k]; [| apply IH].
  destruct (year_match_at prev (c :: s)) as [g|] eqn:E; [| apply IH].
  intros [<-|H]; [| now apply IH in H].
  unfold year_match_at in E. destruct s as [|c2 [|c3 [|c4 tl]]]; try discriminate.
  destruct (word_boundary prev (Some c)); [| discriminate]. cbn [andb] in E.
  destruct (str_eqb [c; c2] (py "19")) eqn:A.
  - apply str_eqb_eq in A. cbn [andb orb] in E.
    destruct (is_digit c3 && is_digit c4 && word_boundary (Some c4) (hd_error tl));
      [| discriminate].
    injection E as <-. now left.
  - destruct (str_eqb [c; c2] (py "20")) eqn:B; [| discriminate].
    apply str_eqb_eq in B. cbn [andb orb] in E.
    destruct (is_digit c3 && is_digit c4 && word_boundary (Some c4) (hd_error tl));
      [| discriminate].
    injection E as <-. now right.
Qed.

(** What the fallback stores is never a 4-digit token. *)
Lemma year_fallback_two_digits (page_html y : str) :
  year_fallback page_html = Some y -> y = py "19" \/ y = py "20".
Proof.
  unfold year_fallback, findall_years. intros H.
  apply (@findall_years_groups 0 None page_html).
  destruct (findall_years_from 0 None page_html); [discriminate |].
  injection H as ->. now left.
Qed.

(** C1. On an album page without a year cell whose markup reads
    "Released 1999, reissued 2004", the primary strategy raises, the first
    4-digit token beginning with 19 or 20 is "1999", and the record holds
    the release year "19": [re.findall] returns the group of the pattern,
    not the token. *)
Theorem fallback_year_is_group :
  year_primary ab_album_page = Raise NoSuchElementException
  /\ page_source ab_album_page = Ret (py "<p>Released 1999, reissued 2004</p>")
  /\ first_year_token (py "<p>Released 1999, reissued 2004</p>") = Some (py "1999")
  /\ exists a, get_album_data ab_album_page (py "/release/1") = Ret (Some a)
               /\ release_year a = Some (py "19").
Proof.
  split; [reflexivity |]. split; [reflexivity |]. split; [vm_compute; reflexivity |].
  eexists. split; [vm_compute; reflexivity | reflexivity].
Qed.

(** ** Outcome of the album extraction *)

(** What holds of the outcome of [get_album_data]: it returns [None]
    exactly when the navigation raises.
    The wait for the heading has no influence on the result.  When the
    markup snapshot and the lookup of the heading complete, a record is
    returned whatever the other queries answer: a release year strategy that
    raises falls back to the scan of the markup, and a failure of the label,
    of the styles or of the track list leaves null, resp. an empty list, in
    the record. *)
Theorem album_extraction_outcome (p : AlbumPage) (album_url : str) :
  (get_album_data p album_url = Ret None <-> exists e, album_get p = Raise e)
  /\ (forall w, get_album_data (with_album_wait w p) album_url
               = get_album_data p album_url)
  /\ (forall u page_html name,
        album_get p = Ret u -> page_source p = Ret page_html ->
        extract_album_name p = Ret name ->
        get_album_data p album_url =
        Ret (Some (mkAlbum (album_uuid p) name (extract_release_year p page_html)
                           (extract_label p) (extract_styles p)
                           (sorted (extract_tracks p name)) album_url)))
  /\ (forall e page_html, year_primary p = Raise e ->
        extract_release_year p page_html = year_fallback page_html)
  /\ (forall e e', label_elem p = Raise e -> label_fallback p = Raise e' ->
        extract_label p = None)
  /\ (forall e, style_anchors p = Raise e -> extract_styles p = [])
  /\ (forall a e, style_anchors p = Ret a -> scan_styles a [] = Raise e ->
        extract_styles p = [])
  /\ (forall e name, track_rows p = Raise e -> extract_tracks p name = [])
  /\ (forall rows e name, track_rows p = Ret rows ->
        scan_rows name rows 1 [] = Raise e -> extract_tracks p name = []).
Proof.
  split; [| split; [| split]].
  - unfold get_album_data. destruct (album_get p) as [u|e].
    + split; [| intros [e H]; discriminate].
      destruct (page_source p); cbn [bind]; [| discriminate].
      destruct (extract_album_name p); cbn [bind]; discriminate.
    + split; [intros _; now exists e | reflexivity].
  - intros w. reflexivity.
  - intros u page_html name G S N. unfold get_album_data.
    rewrite G, S. cbn [bind]. rewrite N. reflexivity.
  - repeat split.
    + intros e page_html H. unfold extract_release_year. now rewrite H.
    + intros e e' H1 H2. unfold extract_label. rewrite H1, H2. reflexivity.
    + intros e H. unfold extract_styles. now rewrite H.
    + intros a e H1 H2. unfold extract_styles. rewrite H1. cbn [bind]. now rewrite H2.
    + intros e name H. unfold extract_tracks. now rewrite H.
    + intros rows e name H1 H2. unfold extract_tracks. rewrite H1. cbn [bind].
      now rewrite H2.
Qed.

Lemma album_extraction_outcome_witness :
  get_album_data ab_album_page (py "/release/1") =
  Ret (Some (mkAlbum (py "album") (Some (py "AB")) (Some (py "19")) None []
                     [mkTrack 1 (py "AB0123456789") None;
                      mkTrack 2 (py "Second Song") None]
                     (py "/release/1"))).
Proof.
  destruct (album_extraction_outcome ab_album_page (py "/release/1"))
    as [_ [_ [H _]]].
  rewrite (H tt (py "<p>Released 1999, reissued 2004</p>") (Some (py "AB"))
             eq_refl eq_refl eq_refl).
  vm_compute. reflexivity.
Defined.

(** C8. After a navigation that succeeds, a heading that [find_elements]
    lists but [find_element] no longer finds makes [get_album_data] raise:
    the failure of this field is not degraded to a null name, and neither a
    record nor [None] is returned.  The lookup of the heading and the
    snapshot of the markup are the only queries of the album page outside
    every [try]; the heading lookup of the artist page is guarded. *)
Lemma heading_lookup_escapes :
  album_get vanishing_heading_page = Ret tt
  /\ get_album_data vanishing_heading_page (py "/release/1")
     = Raise NoSuchElementException.
Proof. split; reflexivity. Qed.

(** ** Outcome of the artist extraction *)

Lemma collect_albums_returns (album_page : str -> AlbumPage)
    (album_links : list str) (acc : list Album) :
  (forall a_url, In a_url album_links ->
     exists r, get_album_data (album_page a_url) a_url = Ret r) ->
  exists l, collect_albums album_page album_links acc = Ret l.
Proof.
  revert acc. induction album_links as [|u rest IH]; intros acc H;
    cbn [collect_albums].
  - now exists acc.
  - destruct (H u (or_introl eq_refl)) as [r ->]. cbn [bind].
    destruct r; apply IH; intros v Hv; apply H; now right.
Qed.

(** What holds of the outcome of [get_artist_data]: it returns [None]
    exactly when the navigation raises
    or the wait for the heading raises.  Otherwise, whatever the lookups of
    the name, the members, the sites and the album links answer, a record is
    composed as soon as the album extractor returns for the links that were
    collected: a lookup that raises leaves null for the name and an empty
    list for the members, the sites and the album links. *)
Theorem artist_extraction_outcome (p : ArtistPage) (artist_url genre : str)
    (album_limit : Z) :
  (get_artist_data p artist_url genre album_limit = Ret None <->
   (exists e, artist_get p = Raise e) \/ (exists e, artist_wait p = Raise e))
  /\ (forall u w,
        artist_get p = Ret u -> artist_wait p = Ret w ->
        (forall a_url, In a_url (collect_album_links p album_limit) ->
           exists r, get_album_data (album_page p a_url) a_url = Ret r) ->
        exists albums,
          get_artist_data p artist_url genre album_limit =
          Ret (Some (mkArtist (artist_uuid p) genre (extract_artist_name p)
                              (extract_members p) (extract_websites p) albums
                              artist_url)))
  /\ (forall e, artist_h1 p = Raise e -> extract_artist_name p = None)
  /\ (forall e, member_links p = Raise e -> extract_members p = [])
  /\ (forall l e, member_links p = Ret l -> scan_members l [] = Raise e ->
        extract_members p = [])
  /\ (forall e, sites p = Raise e -> extract_websites p = [])
  /\ (forall l e, sites p = Ret l -> scan_sites l [] = Raise e ->
        extract_websites p = [])
  /\ (forall e, candidate_links p = Raise e ->
        collect_album_links p album_limit = [])
  /\ (forall l e, candidate_links p = Ret l ->
        scan_album_links album_limit l [] [] = Raise e ->
        collect_album_links p album_limit = []).
Proof.
  split; [| split].
  - unfold get_artist_data. destruct (artist_get p) as [u|e].
    + destruct (artist_wait p) as [w|e].
      * split; [| intros [[e H]|[e H]]; discriminate].
        destruct (collect_albums _ _ _); cbn [bind]; discriminate.
      * split; [intros _; right; now exists e | reflexivity].
    + split; [intros _; left; now exists e | reflexivity].
  - intros u w G W H. unfold get_artist_data. rewrite G, W.
    destruct (@collect_albums_returns (album_page p)
                (collect_album_links p album_limit) [] H) as [l ->].
    now exists l.
  - repeat split.
    + intros e H. unfold extract_artist_name. now rewrite H.
    + intros e H. unfold extract_members. now rewrite H.
    + intros l e H1 H2. unfold extract_members. rewrite H1. cbn [bind].
      now rewrite H2.
    + intros e H. unfold extract_websites. now rewrite H.
    + intros l e H1 H2. unfold extract_websites. rewrite H1. cbn [bind].
      now rewrite H2.
    + intros e H. unfold collect_album_links. now rewrite H.
    + intros l e H1 H2. unfold collect_album_links. rewrite H1. cbn [bind].
      now rewrite H2.
Qed.

Lemma artist_extraction_outcome_witness :
  exists albums,
    get_artist_data test_band_page (py "url") (py "Rock") 2 =
    Ret (Some (mkArtist (py "artist") (py "Rock") (Some (py "The Test Band"))
                        [py "Member A"] [py "https://test.com/site"] albums
                        (py "url"))).
Proof.
  destruct (artist_extraction_outcome test_band_page (py "url") (py "Rock") 2)
    as [_ [H _]].
  destruct (H tt tt eq_refl eq_refl) as [albums E].
  - intros a_url _. eexists. reflexivity.
  - exists albums. rewrite E. reflexivity.
Defined.

Lemma failing_fields_record :
  get_artist_data failing_fields_page (py "url") (py "Rock") 10 =
  Ret (Some (mkArtist (py "artist") (py "Rock") None [] [] [] (py "url"))).
Proof. vm_compute. reflexivity. Qed.

(** [test_get_artists_by_genre_respects_limit]: three locators under the
    cap 3, the fourth artist is not among them. *)
Lemma four_artists_cap_three :
  get_artists_by_genre four_artists_page 3 =
  Ret [py "https://www.discogs.com/artist/1";
       py "https://www.discogs.com/artist/2";
       py "https://www.discogs.com/artist/3"].
Proof. vm_compute. reflexivity. Qed.

(** The page of the test suite: the name, one member, one site, and two
    albums under the cap 2. *)
Lemma test_band_record :
  exists a b,
    get_artist_data test_band_page (py "url") (py "Rock") 2 =
    Ret (Some (mkArtist (py "artist") (py "Rock") (Some (py "The Test Band"))
                        [py "Member A"] [py "https://test.com/site"] [a; b]
                        (py "url"))).
Proof. do 2 eexists. vm_compute. reflexivity. Qed.

(** * Further properties of the extractors *)

(** ** Sites, members and styles *)

Lemma falsy_Some (x : str) : falsy (Some x) = false <-> x <> [].
Proof. destruct x; simpl; split; congruence. Qed.

Lemma scan_sites_inv (l : list WebElement) (acc r : list str) :
  NoDup acc -> scan_sites l acc = Ret r ->
  NoDup r
  /\ (forall w, In w acc -> In w r)
  /\ (forall w, In w r ->
        In w acc \/ (w <> [] /\ exists a, In a l /\ href a = Ret (Some w)))
  /\ (forall a w, In a l -> href a = Ret (Some w) -> w <> [] -> In w r).
Proof.
  revert acc. induction l as [|a l IH]; intros acc N; cbn [scan_sites].
  - intros E. injection E as <-. repeat split; try tauto.
    intros a w [].
  - destruct (href a) as [h|e] eqn:H; cbn [bind]; [| discriminate].
    assert (Skip : scan_sites l acc = Ret r ->
                   (forall w, h = Some w -> w <> [] -> In w acc) ->
                   NoDup r /\ (forall w, In w acc -> In w r)
                   /\ (forall w, In w r -> In w acc \/
                         (w <> [] /\ exists a0, In a0 (a :: l) /\ href a0 = Ret (Some w)))
                   /\ (forall a0 w, In a0 (a :: l) -> href a0 = Ret (Some w) ->
                         w <> [] -> In w r)).
    { intros E K. destruct (IH acc N E) as [R1 [R2 [R3 R4]]].
      repeat split; try assumption.
      - intros w Hw. destruct (R3 w Hw) as [?|[? [a0 [? ?]]]]; [now left |].
        right. split; [assumption |]. exists a0. split; [now right | assumption].
      - intros a0 w [<-|Ha] Hh Hn; [| now apply (R4 a0)].
        apply R2, K; [congruence | assumption]. }
    destruct h as [x|]; [| intros E; apply Skip; [assumption | discriminate]].
    destruct (falsy (Some x)) eqn:F; cbn [negb andb].
    + intros E. apply Skip; [assumption |]. intros w Hw Hn.
      injection Hw as ->. apply falsy_Some in Hn. congruence.
    + destruct (mem x acc) eqn:M; cbn [negb].
      * intros E. apply Skip; [assumption |]. intros w Hw _.
        injection Hw as <-. now apply mem_In.
      * intros E. apply mem_false in M. apply falsy_Some in F.
        assert (N' : NoDup (acc ++ [x])).
        { apply NoDup_app; [assumption | repeat constructor; intros [] |].
          intros w Hw [<-|[]]. contradiction. }
        destruct (IH _ N' E) as [R1 [R2 [R3 R4]]]. repeat split.
        -- assumption.
        -- intros w Hw. apply R2, in_or_app. now left.
        -- intros w Hw. destruct (R3 w Hw) as [K|[? [a0 [? ?]]]].
           ++ apply in_app_or in K. destruct K as [K|[<-|[]]]; [now left |].
              right. split; [assumption |]. exists a. split; [now left | assumption].
           ++ right. split; [assumption |]. exists a0. split; [now right | assumption].
        -- intros a0 w [<-|Ha] Hh Hn; [| now apply (R4 a0)].
           rewrite H in Hh. injection Hh as <-. apply R2, in_or_app. right. now left.
Qed.

(** X1. The sites of an artist record hold no target twice; each is a
    non-empty target of one of the site anchors; and when every anchor lets
    its target be read, each non-empty target is among them. *)
Theorem websites_unique (p : ArtistPage) :
  NoDup (extract_websites p)
  /\ (forall w, In w (extract_websites p) ->
        w <> [] /\ exists l a, sites p = Ret l /\ In a l /\ href a = Ret (Some w))
  /\ (forall l, sites p = Ret l ->
        (forall a, In a l -> exists h, href a = Ret h) ->
        forall a w, In a l -> href a = Ret (Some w) -> w <> [] ->
                    In w (extract_websites p)).
Proof.
  unfold extract_websites. destruct (sites p) as [l|e]; cbn [bind try_except].
  - destruct (scan_sites l []) as [r|e] eqn:E; cbn [try_except].
    + destruct (@scan_sites_inv l [] r (NoDup_nil _) E) as [R1 [_ [R3 R4]]].
      split; [assumption |]. split.
      * intros w Hw. destruct (R3 w Hw) as [[]|[Hn [a [Ha Hh]]]].
        split; [assumption |]. now exists l, a.
      * intros l' L _ a w Ha Hh Hn. injection L as <-. now apply (R4 a).
    + split; [constructor |]. split; [intros w [] |].
      intros l' L T. injection L as <-. exfalso.
      clear -E T. revert E. generalize (@nil str).
      induction l as [|a l IH]; intros acc; cbn [scan_sites]; [discriminate |].
      destruct (T a (or_introl eq_refl)) as [h ->]. cbn [bind].
      assert (T' : forall a0, In a0 l -> exists h0, href a0 = Ret h0)
        by (intros a0 H0; apply T; now right).
      destruct h as [x|]; [| now apply IH].
      destruct (negb (falsy (Some x)) && negb (mem x acc)); now apply IH.
  - split; [constructor |]. split; [intros w [] | intros l L; discriminate].
Qed.

Lemma scan_members_inv (l : list WebElement) (acc r : list str) :
  scan_members l acc = Ret r ->
  forall m, In m r ->
    In m acc \/ (m <> [] /\ exists a, In a l /\ safe_text a = Ret m).
Proof.
  revert acc. induction l as [|a l IH]; intros acc; cbn [scan_members].
  - intros E. injection E as <-. now left.
  - destruct (safe_text a) as [t|e] eqn:T; cbn [bind]; [| discriminate].
    destruct (falsy (Some t)) eqn:F; intros E m Hm;
      destruct (IH _ E m Hm) as [K|[Hn [a0 [Ha Hs]]]].
    + now left.
    + right. split; [assumption |]. exists a0. split; [now right | assumption].
    + apply in_app_or in K. destruct K as [K|[<-|[]]]; [now left |].
      right. split; [now apply falsy_Some |]. exists a. split; [now left | assumption].
    + right. split; [assumption |]. exists a0. split; [now right | assumption].
Qed.

(** X2. The members of an artist record hold no name twice; each is the
    non-empty stripped text of one of the member links. *)
Theorem members_unique (p : ArtistPage) :
  NoDup (extract_members p)
  /\ (forall m, In m (extract_members p) ->
        m <> [] /\ stripped m
        /\ exists l a, member_links p = Ret l /\ In a l /\ safe_text a = Ret m).
Proof.
  unfold extract_members. destruct (member_links p) as [l|e]; cbn [bind try_except];
    [| split; [constructor | intros m []]].
  destruct (scan_members l []) as [r|e] eqn:E; cbn [bind try_except];
    [| split; [constructor | intros m []]].
  rewrite list_of_set_first_occurrences. split; [apply first_occurrences_NoDup |].
  intros m Hm. apply (proj1 (first_occurrences_In m r)) in Hm.
  destruct (scan_members_inv _ _ E m Hm) as [[]|[Hn [a [Ha Hs]]]].
  split; [assumption |]. split; [now apply safe_text_Ret in Hs |]. now exists l, a.
Qed.

Lemma scan_styles_inv (anchors : list WebElement) (acc r : list str) :
  NoDup acc -> scan_styles anchors acc = Ret r ->
  NoDup r
  /\ forall s, In s r ->
       In s acc \/ (2 < length s < 30 /\ exists a, In a anchors /\ safe_text a = Ret s).
Proof.
  revert acc. induction anchors as [|a l IH]; intros acc N; cbn [scan_styles].
  - intros E. injection E as <-. split; [assumption | now left].
  - destruct (safe_text a) as [t|e] eqn:T; cbn [bind]; [| discriminate].
    destruct ((2 <? length t) && (length t <? 30) && negb (mem t acc)) eqn:C.
    + apply andb_true_iff in C. destruct C as [C M].
      apply andb_true_iff in C. destruct C as [C1 C2].
      apply Nat.ltb_lt in C1, C2. apply negb_true_iff, mem_false in M.
      assert (N' : NoDup (acc ++ [t])).
      { apply NoDup_app; [assumption | repeat constructor; intros [] |].
        intros w Hw [<-|[]]. contradiction. }
      intros E. destruct (IH _ N' E) as [R1 R2]. split; [assumption |].
      intros s Hs. destruct (R2 s Hs) as [K|[B [a0 [Ha Ht]]]].
      * apply in_app_or in K. destruct K as [K|[<-|[]]]; [now left |].
        right. split; [lia |]. exists a. split; [now left | assumption].
      * right. split; [assumption |]. exists a0. split; [now right | assumption].
    + intros E. destruct (IH _ N E) as [R1 R2]. split; [assumption |].
      intros s Hs. destruct (R2 s Hs) as [K|[B [a0 [Ha Ht]]]]; [now left |].
      right. split; [assumption |]. exists a0. split; [now right | assumption].
Qed.

(** X3. The styles of an album record hold no entry twice, and each entry
    is the stripped text of a style anchor, longer than 2 and shorter than
    30 characters. *)
Theorem styles_filtered (p : AlbumPage) :
  NoDup (extract_styles p)
  /\ (forall s, In s (extract_styles p) ->
        2 < length s < 30 /\ stripped s
        /\ exists l a, style_anchors p = Ret l /\ In a l /\ safe_text a = Ret s).
Proof.
  unfold extract_styles. destruct (style_anchors p) as [l|e]; cbn [bind try_except];
    [| split; [constructor | intros s []]].
  destruct (scan_styles l []) as [r|e] eqn:E; cbn [try_except];
    [| split; [constructor | intros s []]].
  destruct (@scan_styles_inv l [] r (NoDup_nil _) E) as [R1 R2].
  split; [assumption |]. intros s Hs.
  destruct (R2 s Hs) as [[]|[B [a [Ha Ht]]]].
  split; [assumption |]. split; [now apply safe_text_Ret in Ht |]. now exists l, a.
Qed.

(** ** Album links and albums of an artist *)

Lemma scan_album_links_inv (album_limit : Z) (cands : list WebElement)
    (seen acc r : list str) :
  NoDup acc -> (forall x, In x seen <-> In x acc) ->
  scan_album_links album_limit cands seen acc = Ret r ->
  NoDup r
  /\ forall u, In u r ->
       In u acc
       \/ exists a x, In a cands /\ href a = Ret (Some x) /\ u = strip_query x
                      /\ (occurs (py "/release/") x \/ occurs (py "/master/") x).
Proof.
  revert seen acc. induction cands as [|a rest IH]; intros seen acc N S;
    cbn [scan_album_links].
  - intros E. injection E as <-. split; [assumption | now left].
  - assert (Skip : scan_album_links album_limit rest seen acc = Ret r ->
                   NoDup r
                   /\ forall u, In u r -> In u acc
                        \/ exists a0 x, In a0 (a :: rest) /\ href a0 = Ret (Some x)
                             /\ u = strip_query x
                             /\ (occurs (py "/release/") x \/ occurs (py "/master/") x)).
    { intros E. destruct (IH _ _ N S E) as [R1 R2]. split; [assumption |].
      intros u Hu. destruct (R2 u Hu) as [K|[a0 [x [Ha K]]]]; [now left |].
      right. exists a0, x. split; [now right | assumption]. }
    destruct (href a) as [[x|]|e] eqn:H; cbn [bind]; [| assumption | discriminate].
    destruct (negb (falsy (Some x))
              && (contains (py "/release/") x || contains (py "/master/") x)) eqn:Q;
      [| assumption].
    apply andb_true_iff in Q. destruct Q as [_ Q].
    rewrite orb_true_iff, !contains_occurs in Q.
    destruct (mem (strip_query x) seen) eqn:M; [assumption |].
    apply mem_false in M. rewrite S in M.
    assert (N' : NoDup (acc ++ [strip_query x])).
    { apply NoDup_app; [assumption | repeat constructor; intros [] |].
      intros w Hw [<-|[]]. contradiction. }
    assert (New : forall u, In u (acc ++ [strip_query x]) ->
                  In u acc
                  \/ exists a0 x0, In a0 (a :: rest) /\ href a0 = Ret (Some x0)
                       /\ u = strip_query x0
                       /\ (occurs (py "/release/") x0 \/ occurs (py "/master/") x0)).
    { intros u Hu. apply in_app_or in Hu. destruct Hu as [K|[<-|[]]]; [now left |].
      right. exists a, x. split; [now left |]. now repeat split. }
    destruct (len (acc ++ [strip_query x]) >=? album_limit)%Z.
    + intros E. injection E as <-. now split.
    + intros E.
      assert (S' : forall y, In y (strip_query x :: seen) <-> In y (acc ++ [strip_query x])).
      { intros y. rewrite in_app_iff. simpl. rewrite S. tauto. }
      destruct (IH _ _ N' S' E) as [R1 R2]. split; [assumption |].
      intros u Hu. destruct (R2 u Hu) as [K|[a0 [x0 [Ha K]]]]; [now apply New |].
      right. exists a0, x0. split; [now right | assumption].
Qed.

(** X7. The album links collected from an artist page hold no link twice,
    and each is the target, cut at its first question mark, of an anchor
    whose target holds "/release/" or "/master/". *)
Theorem album_links_unique (p : ArtistPage) (album_limit : Z) :
  NoDup (collect_album_links p album_limit)
  /\ (forall u, In u (collect_album_links p album_limit) ->
        exists l a x, candidate_links p = Ret l /\ In a l
                      /\ href a = Ret (Some x) /\ u = strip_query x
                      /\ (occurs (py "/release/") x \/ occurs (py "/master/") x)).
Proof.
  unfold collect_album_links.
  destruct (candidate_links p) as [l|e]; cbn [bind try_except];
    [| split; [constructor | intros u []]].
  destruct (scan_album_links album_limit l [] []) as [r|e] eqn:E; cbn [try_except];
    [| split; [constructor | intros u []]].
  destruct (@scan_album_links_inv album_limit l [] [] r (NoDup_nil _)
              (fun x => conj (fun H => H) (fun H => H)) E) as [R1 R2].
  split; [assumption |]. intros u Hu.
  destruct (R2 u Hu) as [[]|[a [x [Ha K]]]]. now exists l, a, x.
Qed.

Lemma scan_album_links_cap_max (album_limit : Z) (cands : list WebElement)
    (seen acc l : list str) :
  (len acc < Z.max 1 album_limit)%Z ->
  scan_album_links album_limit cands seen acc = Ret l ->
  (len l <= Z.max 1 album_limit)%Z.
Proof.
  revert seen acc. induction cands as [|a rest IH]; intros seen acc L;
    cbn [scan_album_links].
  - intros E. injection E as <-. lia.
  - destruct (href a) as [[x|]|e]; cbn [bind]; [| now apply IH | discriminate].
    destruct (negb (falsy (Some x)) && _); [| now apply IH].
    destruct (mem (strip_query x) seen); [now apply IH |].
    destruct (len (acc ++ [strip_query x]) >=? album_limit)%Z eqn:G.
    + intros E. injection E as <-. unfold len in *.
      rewrite length_app. cbn [length]. lia.
    + apply geb_false in G. apply IH. unfold len in *.
      rewrite length_app in *. cbn [length] in *. lia.
Qed.

Lemma get_album_data_source (p : AlbumPage) (album_url : str) (a : Album) :
  get_album_data p album_url = Ret (Some a) -> album_source_url a = album_url.
Proof.
  unfold get_album_data. destruct (album_get p); [| discriminate].
  destruct (page_source p); cbn [bind]; [| discriminate].
  destruct (extract_album_name p); cbn [bind]; [| discriminate].
  intros E. now injection E as <-.
Qed.

Lemma collect_albums_sources (album_page : str -> AlbumPage)
    (album_links : list str) (acc l : list Album) :
  collect_albums album_page album_links acc = Ret l ->
  map album_source_url l =
  map album_source_url acc ++ filter (album_extracted album_page) album_links.
Proof.
  revert acc. induction album_links as [|u rest IH]; intros acc;
    cbn [collect_albums filter].
  - intros E. injection E as <-. now rewrite app_nil_r.
  - unfold album_extracted at 1.
    destruct (get_album_data (album_page u) u) as [[a|]|e] eqn:G; cbn [bind];
      [| apply IH | discriminate].
    intros E. rewrite (IH _ E), map_app, <- app_assoc. cbn [map app].
    now rewrite (get_album_data_source _ _ G).
Qed.

(** X8. An artist record holds at most [max(1, album_limit)] albums: the
    cap when it is 1 or more, and one album under any smaller cap. *)
Theorem albums_at_most_cap_or_one (p : ArtistPage) (artist_url genre : str)
    (album_limit : Z) (a : Artist) :
  get_artist_data p artist_url genre album_limit = Ret (Some a) ->
  (Z.of_nat (length (albums a)) <= Z.max 1 album_limit)%Z.
Proof.
  unfold get_artist_data.
  destruct (artist_get p); [| discriminate].
  destruct (artist_wait p); [| discriminate].
  destruct (collect_albums _ _ _) as [l|e] eqn:E; cbn [bind]; [| discriminate].
  intros K. injection K as <-. cbn [albums].
  apply collect_albums_length in E. cbn [length] in E.
  assert (C : (len (collect_album_links p album_limit) <= Z.max 1 album_limit)%Z).
  { unfold collect_album_links.
    destruct (candidate_links p) as [c|e]; cbn [bind try_except];
      [| unfold len; simpl; lia].
    destruct (scan_album_links album_limit c [] []) as [r|e] eqn:S;
      cbn [try_except]; [| unfold len; simpl; lia].
    apply scan_album_links_cap_max in S; [assumption | unfold len; simpl; lia]. }
  unfold len in C. lia.
Qed.

Lemma albums_at_most_cap_or_one_witness :
  exists a, get_artist_data test_band_page (py "url") (py "Rock") 2 = Ret (Some a)
            /\ (Z.of_nat (length (albums a)) <= Z.max 1 2)%Z.
Proof.
  eexists. split; [vm_compute; reflexivity |].
  apply (@albums_at_most_cap_or_one test_band_page (py "url") (py "Rock") 2).
  vm_compute. reflexivity.
Defined.

(** X15. The albums of an artist record come from distinct locators: their
    source locators are the collected album links at which the album
    extractor gave a record, in the order of collection, none twice. *)
Theorem albums_distinct_sources (p : ArtistPage) (artist_url genre : str)
    (album_limit : Z) (a : Artist) :
  get_artist_data p artist_url genre album_limit = Ret (Some a) ->
  map album_source_url (albums a) =
  filter (album_extracted (album_page p)) (collect_album_links p album_limit)
  /\ NoDup (map album_source_url (albums a)).
Proof.
  unfold get_artist_data.
  destruct (artist_get p); [| discriminate].
  destruct (artist_wait p); [| discriminate].
  destruct (collect_albums _ _ _) as [l|e] eqn:E; cbn [bind]; [| discriminate].
  intros K. injection K as <-. cbn [albums].
  apply collect_albums_sources in E. cbn [map app] in E.
  split; [exact E |]. rewrite E. apply NoDup_filter.
  unfold collect_album_links.
  destruct (candidate_links p) as [c|e]; cbn [bind try_except]; [| constructor].
  destruct (scan_album_links album_limit c [] []) as [r|e] eqn:S;
    cbn [try_except]; [| constructor].
  now destruct (@scan_album_links_inv album_limit c [] [] r (NoDup_nil _)
                  (fun x => conj (fun H => H) (fun H => H)) S).
Qed.

Lemma albums_distinct_sources_witness :
  exists a, get_artist_data test_band_page (py "url") (py "Rock") 3 = Ret (Some a)
            /\ map album_source_url (albums a) =
               [py "/release/100"; py "/master/200"; py "/release/300"].
Proof.
  destruct (get_artist_data test_band_page (py "url") (py "Rock") 3)
    as [[a|]|e] eqn:E; [| vm_compute in E; discriminate
                        | vm_compute in E; discriminate].
  exists a. split; [reflexivity |].
  destruct (albums_distinct_sources _ _ _ _ E) as [H _].
  rewrite H. vm_compute. reflexivity.
Defined.

(** X9. Link discovery returns at most [limit] locators, and none when the
    limit is zero or negative. *)
Theorem discovery_at_most_limit (page : GenrePage) (limit : Z) (l : list str) :
  get_artists_by_genre page limit = Ret l -> length l <= Z.to_nat limit.
Proof.
  unfold get_artists_by_genre.
  destruct (genre_get page) as [[]|e] eqn:G; cbn [bind]; [| discriminate].
  destruct (genre_wait page) as [[]|e] eqn:W.
  - pose proof (get_artists_by_genre_spec page limit G W) as E.
    unfold get_artists_by_genre in E. rewrite G, W in E. cbn [bind] in E.
    rewrite E. intros K. injection K as <-. unfold discover_spec.
    apply firstn_le_length.
  - intros K. injection K as <-. simpl. lia.
Qed.

Lemma discovery_at_most_limit_witness :
  length [py "https://www.discogs.com/artist/1";
          py "https://www.discogs.com/artist/2";
          py "https://www.discogs.com/artist/3"] <= Z.to_nat 3.
Proof.
  apply (@discovery_at_most_limit four_artists_page 3). vm_compute. reflexivity.
Defined.

(** ** Release year *)

Lemma search_year_param_unfold (s : str) :
  search_year_param s =
  if starts_with (py "year=") s && digits_at 4 (skipn 5 s)
  then Some (firstn 4 (skipn 5 s))
  else match s with
       | [] => None
       | _ :: s' => search_year_param s'
       end.
Proof. destruct s; reflexivity. Qed.

Lemma search_year_param_spec (x y : str) :
  search_year_param x = Some y ->
  length y = 4 /\ forallb is_digit y = true /\ occurs (py "year=" ++ y) x.
Proof.
  induction x as [|c x IH]; rewrite search_year_param_unfold.
  - simpl. discriminate.
  - destruct (starts_with (py "year=") (c :: x) && digits_at 4 (skipn 5 (c :: x))) eqn:M.
    + intros E. assert (Hy : y = firstn 4 (skipn 5 (c :: x))) by congruence.
      clear E IH. rewrite Hy. clear Hy.
      apply andb_true_iff in M. destruct M as [P D].
      apply starts_with_spec in P. destruct P as [t P].
      rewrite P in *. change (skipn 5 (py "year=" ++ t)) with t in *.
      unfold digits_at in D. apply andb_true_iff in D. destruct D as [L D].
      apply Nat.leb_le in L. repeat split.
      * rewrite length_firstn. lia.
      * exact D.
      * exists [], (skipn 4 t). cbn [app]. rewrite <- app_assoc.
        now rewrite firstn_skipn.
    + intros E. destruct (IH E) as [H1 [H2 [u [v H3]]]]. repeat split; try assumption.
      exists (c :: u), v. now rewrite H3.
Qed.





(** ** Track rows *)

Lemma first_long_text_inv (all_texts : list WebElement) (d : option str) (n : str) :
  first_long_text all_texts d = Ret (Some n) ->
  5 < length n /\ d <> Some n
  /\ exists t, In t all_texts /\ safe_text t = Ret n.
Proof.
  induction all_texts as [|t rest IH]; cbn [first_long_text]; [discriminate |].
  destruct (safe_text t) as [x|e] eqn:E; cbn [bind]; [| discriminate].
  destruct (negb (falsy (Some x)) && differs x d && (5 <? length x)) eqn:C.
  - intros K. injection K as <-.
    apply andb_true_iff in C. destruct C as [C L].
    apply andb_true_iff in C. destruct C as [_ D].
    apply Nat.ltb_lt in L. repeat split; [assumption | | now exists t; split; [left |]].
    unfold differs in D. destruct d as [d|]; [| discriminate].
    apply negb_true_iff, str_eqb_neq in D. congruence.
  - intros K. destruct (IH K) as [H1 [H2 [t' [H3 H4]]]].
    repeat split; try assumption. exists t'. split; [now right | assumption].
Qed.

(** X6. In a row without a title span, the name taken from the texts of the
    row is the stripped text of one of them, longer than 5 characters and
    different from the duration of the row. *)
Theorem fallback_name_long (r : TrackRow) (d : option str) (n : str) :
  row_title r = missing -> row_name r d = Ret (Some n) ->
  5 < length n /\ d <> Some n
  /\ exists l t, row_texts r = Ret l /\ In t l /\ safe_text t = Ret n.
Proof.
  unfold row_name, missing. intros ->.
  destruct (row_texts r) as [l|e]; cbn [bind]; [| discriminate].
  intros E. destruct (first_long_text_inv _ _ E) as [H1 [H2 [t [H3 H4]]]].
  repeat split; try assumption. now exists l, t.
Qed.

Lemma fallback_name_long_witness :
  5 < length (py "Come Together") /\ Some (py "3:45") <> Some (py "Come Together")
  /\ exists l t, row_texts untitled_row = Ret l /\ In t l
                 /\ safe_text t = Ret (py "Come Together").
Proof.
  apply (@fallback_name_long untitled_row (Some (py "3:45")) (py "Come Together"));
    reflexivity.
Defined.

Lemma row_name_stripped (r : TrackRow) (d : option str) (n : str) :
  row_name r d = Ret (Some n) -> stripped n.
Proof.
  unfold row_name. destruct (row_title r) as [e|x].
  - destruct (safe_text e) as [t|x] eqn:E; cbn [bind]; [| discriminate].
    intros K. injection K as <-. now apply safe_text_Ret in E.
  - destruct x; try discriminate.
    destruct (row_texts r) as [l|x]; cbn [bind]; [| discriminate].
    intros E. destruct (first_long_text_inv _ _ E) as [_ [_ [t [_ H]]]].
    now apply safe_text_Ret in H.
Qed.

Lemma row_dur_raw_stripped (r : TrackRow) (d : str) :
  row_dur_raw r = Ret (Some d) -> stripped d.
Proof.
  unfold row_dur_raw. destruct (row_duration r) as [e|x].
  - destruct (safe_text e) as [t|x] eqn:E; cbn [bind]; [| discriminate].
    intros K. injection K as <-. now apply safe_text_Ret in E.
  - destruct x; discriminate.
Qed.

Lemma survivors_inv (album_name_raw : option str) (rows : list TrackRow)
    (s : list (str * option str)) :
  survivors album_name_raw rows = Ret s ->
  forall n d, In (n, d) s ->
    discarded album_name_raw (Some n) = false
    /\ exists r, In r rows /\ row_dur_raw r = Ret d /\ row_name r d = Ret (Some n).
Proof.
  revert s. induction rows as [|r rest IH]; intros s; cbn [survivors].
  - intros E. injection E as <-. intros n d [].
  - destruct (row_dur_raw r) as [d0|e] eqn:D; cbn [bind]; [| discriminate].
    destruct (row_name r d0) as [name|e] eqn:N; cbn [bind]; [| discriminate].
    destruct (survivors album_name_raw rest) as [s'|e]; cbn [bind]; [| discriminate].
    assert (Old : forall n d, In (n, d) s' ->
              discarded album_name_raw (Some n) = false
              /\ exists r0, In r0 (r :: rest) /\ row_dur_raw r0 = Ret d
                            /\ row_name r0 d = Ret (Some n)).
    { intros n d H. destruct (IH s' eq_refl n d H) as [H1 [r0 [H2 H3]]].
      split; [assumption |]. exists r0. split; [now right | assumption]. }
    destruct name as [n0|]; [| intros E; injection E as <-; exact Old].
    destruct (discarded album_name_raw (Some n0)) eqn:K;
      intros E; injection E as <-; [exact Old |].
    intros n d [H|H]; [| now apply Old].
    injection H as <- <-. split; [assumption |]. exists r. split; [now left | now split].
Qed.

Lemma number_from_In (t : Track) (tn : Z) (s : list (str * option str)) :
  In t (number_from tn s) -> In (track_name t, duration t) s.
Proof.
  revert tn. induction s as [|[n d] s IH]; intros tn; cbn [number_from]; [intros [] |].
  intros [<-|H]; [now left | right; now apply (IH (tn + 1)%Z)].
Qed.

(** X5. Every track of an album comes from a row of the track list and
    passed the filter: its name is stripped, not empty, not purely numeric,
    and not the album name restated; its duration is what the row gave. *)
Theorem tracks_pass_filter (p : AlbumPage) (album_name_raw : option str) (t : Track) :
  In t (extract_tracks p album_name_raw) ->
  stripped (track_name t)
  /\ track_name t <> []
  /\ ~ purely_numeric (track_name t)
  /\ ~ discard_spec album_name_raw (Some (track_name t))
  /\ exists rows r, track_rows p = Ret rows /\ In r rows
                    /\ row_dur_raw r = Ret (duration t)
                    /\ row_name r (duration t) = Ret (Some (track_name t)).
Proof.
  unfold extract_tracks. destruct (track_rows p) as [rows|e]; cbn [bind try_except];
    [| intros []].
  rewrite scan_rows_survivors.
  destruct (survivors album_name_raw rows) as [s|e] eqn:S; cbn [bind try_except];
    [| intros []].
  cbn [app]. intros H. apply number_from_In in H.
  destruct (survivors_inv _ _ S _ _ H) as [K [r [R1 [R2 R3]]]].
  pose proof (row_name_stripped _ _ R3) as C.
  assert (N : ~ discard_spec album_name_raw (Some (track_name t))).
  { intros G. apply (discarded_spec album_name_raw) in G; [congruence |].
    intros n E. injection E as <-. apply C. }
  repeat split; try apply C; try assumption.
  - intros E. apply N. left. exact E.
  - intros E. apply N. right. left. exact E.
  - now exists rows, r.
Qed.

Lemma tracks_pass_filter_witness :
  stripped (py "Second Song")
  /\ py "Second Song" <> []
  /\ ~ purely_numeric (py "Second Song")
  /\ ~ discard_spec (Some (py "AB")) (Some (py "Second Song"))
  /\ exists rows r, track_rows ab_album_page = Ret rows /\ In r rows
                    /\ row_dur_raw r = Ret None
                    /\ row_name r None = Ret (Some (py "Second Song")).
Proof.
  apply (@tracks_pass_filter ab_album_page (Some (py "AB"))
           (mkTrack 2 (py "Second Song") None)).
  vm_compute. right. left. reflexivity.
Defined.

(** ** Texts of an album record *)

Lemma digit_not_space (c : ascii) : is_digit c = true -> is_space c = false.
Proof.
  destruct c as [[] [] [] [] [] [] [] []]; vm_compute; congruence.
Qed.

Lemma digits_stripped (y : str) : forallb is_digit y = true -> stripped y.
Proof.
  intros H. rewrite forallb_forall in H.
  assert (K : forall s, (forall c, In c s -> In c y) -> clean_head s).
  { intros [|c s] J; [exact I |]. simpl. apply digit_not_space, H, J. now left. }
  split; [apply K; tauto |].
  apply K. intros c Hc. now apply in_rev.
Qed.

Lemma year_primary_stripped (p : AlbumPage) (y : str) :
  year_primary p = Ret y -> stripped y.
Proof.
  unfold year_primary. destruct (year_elem p) as [e|x]; cbn [bind]; [| discriminate].
  destruct (href e) as [[h|]|x]; cbn [bind]; try discriminate.
  destruct (search_year_param h) as [z|] eqn:S.
  - intros E. injection E as <-. apply digits_stripped.
    now destruct (search_year_param_spec _ S) as [_ [D _]].
  - intros E. now apply safe_text_Ret in E.
Qed.

Lemma extract_label_stripped (p : AlbumPage) (l : str) :
  extract_label p = Some l -> stripped l.
Proof.
  unfold extract_label. destruct (label_elem p) as [e|x]; cbn [bind].
  - destruct (safe_text e) as [t|x] eqn:E.
    + intros K. injection K as <-. now apply safe_text_Ret in E.
    + unfold label_fallback. destruct (label_elems p) as [[|e' r]|y];
        cbn [bind try_except]; try discriminate.
      destruct (safe_text e') as [t|y] eqn:E'; cbn [bind try_except]; [| discriminate].
      intros K. injection K as <-. now apply safe_text_Ret in E'.
  - unfold label_fallback. destruct (label_elems p) as [[|e' r]|y];
      cbn [bind try_except]; try discriminate.
    destruct (safe_text e') as [t|y] eqn:E'; cbn [bind try_except]; [| discriminate].
    intros K. injection K as <-. now apply safe_text_Ret in E'.
Qed.

(** X11. The name, the release year and the label of an album record, and
    the duration of each of its tracks, carry no white space at either end
    when they are present. *)
Theorem album_texts_stripped (p : AlbumPage) (album_url : str) (a : Album) :
  get_album_data p album_url = Ret (Some a) ->
  (forall n, album_name a = Some n -> stripped n)
  /\ (forall y, release_year a = Some y -> stripped y)
  /\ (forall l, label a = Some l -> stripped l)
  /\ (forall t d, In t (tracks a) -> duration t = Some d -> stripped d).
Proof.
  unfold get_album_data. destruct (album_get p); [| discriminate].
  destruct (page_source p) as [html|e]; cbn [bind]; [| discriminate].
  destruct (extract_album_name p) as [name|e] eqn:N; cbn [bind]; [| discriminate].
  intros E. injection E as <-. cbn [album_name release_year label tracks].
  split; [| split; [| split]].
  - intros n ->. unfold extract_album_name in N.
    destruct (album_h1s p) as [[|h hs]|e]; cbn [bind] in N; try discriminate.
    destruct (album_h1 p) as [e|x]; cbn [bind] in N; [| discriminate].
    destruct (safe_text e) as [t|x] eqn:T; cbn [bind] in N; [| discriminate].
    injection N as <-. now apply safe_text_Ret in T.
  - intros y. unfold extract_release_year.
    destruct (year_primary p) as [z|e] eqn:Y.
    + intros E. injection E as <-. now apply year_primary_stripped in Y.
    + intros E. apply year_fallback_two_digits in E.
      destruct E as [-> | ->]; apply digits_stripped; reflexivity.
  - apply extract_label_stripped.
  - intros t d. destruct (extract_tracks_numbered p name) as [s [T _]].
    rewrite T, (sorted_ascending _ (number_from_ascending s 1)), <- T.
    unfold extract_tracks.
    destruct (track_rows p) as [rows|e]; cbn [bind try_except]; [| intros []].
    rewrite scan_rows_survivors.
    destruct (survivors name rows) as [s'|e] eqn:S; cbn [bind try_except];
      [| intros []].
    cbn [app]. intros H D. apply number_from_In in H.
    destruct (survivors_inv _ _ S _ _ H) as [_ [r [_ [R _]]]].
    rewrite D in R. now apply row_dur_raw_stripped in R.
Qed.

Lemma album_texts_stripped_witness :
  exists a, get_album_data year_cell_page (py "/release/1") = Ret (Some a)
            /\ album_name a = Some (py "Abbey Road")
            /\ release_year a = Some (py "1969")
            /\ label a = Some (py "Apple Records")
            /\ stripped (py "Apple Records").
Proof.
  destruct (get_album_data year_cell_page (py "/release/1")) as [[a|]|e] eqn:E;
    [| vm_compute in E; discriminate | vm_compute in E; discriminate].
  exists a. destruct (album_texts_stripped _ _ E) as [_ [_ [L _]]].
  assert (La : label a = Some (py "Apple Records")).
  { vm_compute in E. injection E as <-. reflexivity. }
  repeat split; try (vm_compute in E; injection E as <-; reflexivity);
    apply (L _ La).
Defined.

(** ** Locators *)

(** X14. A path without query, without the base and without surrounding
    white space is turned into the same locator whether the target is the
    path alone, the base followed by the path, or either of them followed
    by a query. *)
Theorem same_locator (p q : str) :
  no_query p -> ~ occurs BASE_URL p -> stripped p ->
  full_url p = BASE_URL ++ p
  /\ full_url (BASE_URL ++ p) = BASE_URL ++ p
  /\ full_url (p ++ py "?" ++ q) = BASE_URL ++ p
  /\ full_url (BASE_URL ++ p ++ py "?" ++ q) = BASE_URL ++ p.
Proof.
  intros Q B [H T]. unfold full_url.
  assert (E1 : normalized_path p = p) by now apply normalized_path_fix.
  assert (E2 : normalized_path (BASE_URL ++ p) = p) by now apply normalized_path_base.
  change (py "?" ++ q) with ("?"%char :: q).
  rewrite app_assoc, !normalized_path_append, E1, E2. tauto.
Qed.

Lemma same_locator_witness :
  full_url (py "/artist/1-A") = py "https://www.discogs.com/artist/1-A"
  /\ full_url (py "https://www.discogs.com/artist/1-A")
     = py "https://www.discogs.com/artist/1-A"
  /\ full_url (py "/artist/1-A?query=x") = py "https://www.discogs.com/artist/1-A"
  /\ full_url (py "https://www.discogs.com/artist/1-A?query=x")
     = py "https://www.discogs.com/artist/1-A".
Proof.
  apply (@same_locator (py "/artist/1-A") (py "query=x")).
  - unfold no_query. simpl. intros H.
    repeat (destruct H as [H|H]; [discriminate |]). exact H.
  - apply find_None. reflexivity.
  - split; reflexivity.
Defined.

(** ** The run over the artists *)





Lemma process_artists_raises (pages : str -> ArtistPage) (artists : list str)
    (g : str) (album_limit : Z) (u : str) (e : exn) :
  In u artists -> get_artist_data (pages u) u g album_limit = Raise e ->
  forall acc, exists e', process_artists pages artists g album_limit acc = Raise e'.
Proof.
  intros I G. induction artists as [|v rest IH]; [destruct I |].
  intros acc. cbn [process_artists].
  destruct (get_artist_data (pages v) v g album_limit) as [[a|]|e0] eqn:V;
    cbn [bind]; [| | now exists e0];
    (destruct I as [->|I]; [congruence | now apply IH]).
Qed.

(** X13. When [get_artist_data] raises at one locator of the list, which it
    does when an album extraction raises, the run raises and no record is
    written, not even those of the artists extracted before: the output file
    is only opened after the loop. *)
Theorem run_aborts_without_output (pages : str -> ArtistPage) (artists : list str)
    (g : str) (album_limit : Z) (u : str) (e : exn) :
  In u artists -> get_artist_data (pages u) u g album_limit = Raise e ->
  exists e', process_artists_and_save pages artists g album_limit = ([], Raise e').
Proof.
  intros I G. unfold process_artists_and_save.
  destruct (process_artists_raises pages artists g album_limit u I G []) as [e' ->].
  now exists e'.
Qed.

Lemma run_aborts_without_output_witness :
  extracted three_artists (py "Rock") 2 (py "/artist/1") = true
  /\ exists e', process_artists_and_save three_artists
                  [py "/artist/1"; py "/artist/3"] (py "Rock") 2 = ([], Raise e').
Proof.
  split; [vm_compute; reflexivity |].
  apply (@run_aborts_without_output three_artists _ (py "Rock") 2 (py "/artist/3")
           NoSuchElementException).
  - right. now left.
  - vm_compute. reflexivity.
Defined.

(** ** An album failure inside the artist extraction *)

(** C7. On an artist page that loads and shows its heading in time, with
    one album link whose album page lets the lookup of its heading raise,
    [get_artist_data] raises: the call of [get_album_data] in the album loop
    is outside every [try], so the exception leaves the function, which
    returns neither the failure signal nor a record.  The same page without
    the album link gives a record. *)
Theorem album_failure_leaves_artist_extraction :
  artist_get (three_artists (py "/artist/3")) = Ret tt
  /\ artist_wait (three_artists (py "/artist/3")) = Ret tt
  /\ collect_album_links (three_artists (py "/artist/3")) 10 = [py "/release/7"]
  /\ get_album_data (album_page (three_artists (py "/artist/3")) (py "/release/7"))
                    (py "/release/7")
     = Raise NoSuchElementException
  /\ get_artist_data (three_artists (py "/artist/3")) (py "/artist/3") (py "Rock") 10
     = Raise NoSuchElementException
  /\ get_artist_data
       (mkArtistPage (Ret tt) (Ret tt) missing (Ret []) (Ret []) (Ret [])
                     (fun _ => vanishing_heading_page) (py "artist"))
       (py "/artist/3") (py "Rock") 10
     = Ret (Some (mkArtist (py "artist") (py "Rock") None [] [] []
                           (py "/artist/3"))).
Proof. repeat split; vm_compute; reflexivity. Qed.
